(** * hanzifier-ext: the dataset preparation scripts

    A shallow embedding of [scripts/prepare_dataset.py] and of the four
    modules under [scripts/lib/] it drives, with the properties of the
    meaning expansion and aggregation pipeline.

    Python values are modelled as follows.
    - [str] is a sequence of Unicode code points: [list N].
    - [set] is a finite set [gset str]; iterating over a set goes through
      [set_iter], an enumeration of the members in an order the program
      does not control.
    - [dict] is a finite map [gmap str _].
    - [int] is [Z] where it can be negative (slice bounds), [nat] for
      lengths and loop indices. *)

From Stdlib Require Import ZArith NArith Lia String Ascii.
From stdpp Require Import gmap list sets.

Local Open Scope N_scope.
Set Default Proof Using "Type".

(** ** Python strings *)

Abbreviation str := (list N).

(** An ASCII literal as a Python string. *)
Definition py (s : string) : str :=
  map N_of_ascii (list_ascii_of_string s).

(** [s.startswith(p)] *)
Fixpoint startswith (s p : str) {struct p} : bool :=
  match p, s with
  | [], _ => true
  | _ :: _, [] => false
  | c :: p', d :: s' => (c =? d) && startswith s' p'
  end.

(** Truthiness of a string: [if s:] *)
Definition truthy (s : str) : bool :=
  match s with [] => false | _ :: _ => true end.

(** The separator of an encoded token, [#]. *)
Definition HASH : N := 35.

(** ** The suffix codec, [lib/morph_en.py] and [lib/morph_ru.py] *)

(** One turn of the loop of [morph_en.encode_suffix_variants]. *)
Definition encode_en_step (lemma : str) (drop_non_prefix : bool)
    (encoded : gset str) (form : str) : gset str :=
  if decide (form = lemma) then {[ lemma ]} ∪ encoded
  else if startswith form lemma then
    let suffix := drop (length lemma) form in
    {[ if truthy suffix then lemma ++ HASH :: suffix else lemma ]} ∪ encoded
  else if negb drop_non_prefix then {[ form ]} ∪ encoded
  else encoded.

(** [morph_en.encode_suffix_variants], imported as [encode_en_suffixes]. *)
Definition encode_en_suffixes (lemma : str) (forms : list str)
    (drop_non_prefix : bool) : gset str :=
  foldl (encode_en_step lemma drop_non_prefix) ∅ forms.

(** One turn of the loop of [morph_ru.encode_suffix_variants]. *)
Definition encode_ru_step (lemma : str) (drop_non_prefix : bool)
    (encoded : gset str) (form : str) : gset str :=
  if decide (form = lemma) then {[ lemma ]} ∪ encoded
  else if startswith form lemma then
    let suffix := drop (length lemma) form in
    {[ if truthy suffix then lemma ++ HASH :: suffix else lemma ]} ∪ encoded
  else if negb drop_non_prefix then {[ form ]} ∪ encoded
  else encoded.

(** [morph_ru.encode_suffix_variants], imported as [encode_ru_suffixes]. *)
Definition encode_ru_suffixes (lemma : str) (forms : list str)
    (drop_non_prefix : bool) : gset str :=
  foldl (encode_ru_step lemma drop_non_prefix) ∅ forms.

(** ** Python built-ins the scripts rely on *)

(** [str.lower()] on one code point. The table covers Basic Latin, the
    Cyrillic capitals U+0400..U+042F and the two code points outside Basic
    Latin whose lowercase form contains a Basic Latin letter (U+0130,
    U+212A); every other code point is left as it is. The program tests
    lowercased text against a..z, а..я, ё and the four bracket characters
    only, and no code point outside this table lowercases into those. *)
Definition lower_char (c : N) : str :=
  if (0x41 <=? c) && (c <=? 0x5A) then [c + 0x20]
  else if (0x400 <=? c) && (c <=? 0x40F) then [c + 0x50]
  else if (0x410 <=? c) && (c <=? 0x42F) then [c + 0x20]
  else if c =? 0x130 then [0x69; 0x307]
  else if c =? 0x212A then [0x6B]
  else [c].

(** [s.lower()] *)
Definition str_lower (s : str) : str := flat_map lower_char s.

(** [a <= b] on strings: lexicographic on code points. *)
Fixpoint str_le (a b : str) : bool :=
  match a, b with
  | [], _ => true
  | _ :: _, [] => false
  | x :: a', y :: b' =>
      if x <? y then true else if x =? y then str_le a' b' else false
  end.

(** [l[:stop]] for an [int] bound: a negative bound counts from the end. *)
Definition slice_to {A} (l : list A) (stop : Z) : list A :=
  if (stop <? 0)%Z
  then take (Z.to_nat (Z.max 0 (Z.of_nat (length l) + stop))) l
  else take (Z.to_nat stop) l.

(** [l[start:stop]] for bounds that are not negative. *)
Definition slice {A} (l : list A) (start stop : nat) : list A :=
  drop start (take stop l).

(** [range(0, stop, step)] for a positive step. *)
Definition range_step (stop step : nat) : list nat :=
  (λ k, k * step)%nat <$> seq 0 ((stop + step - 1) `div` step)%nat.

(** Decimal digits of a number, least significant first. *)
Fixpoint digits_rev (fuel n : nat) : list nat :=
  match fuel with
  | O => []
  | S fuel' =>
      if (n <? 10)%nat then [n]
      else (n `mod` 10)%nat :: digits_rev fuel' (n `div` 10)%nat
  end.

Definition digit_char (d : nat) : N := 0x30 + N.of_nat d.

(** [f"{n:03d}"]: decimal, padded with zeros on the left to three digits. *)
Definition format_03d (n : nat) : str :=
  let ds := digits_rev (S n) n in
  digit_char <$> rev (ds ++ replicate (3 - length ds) 0%nat).

(** [re.sub] of a pattern [open [^close]* close] by a space: a match
    starts at an [open] that has a [close] somewhere after it and ends at
    the first such [close]. [inside] says that the scan is within a match. *)
Definition SPACE : N := 0x20.

Fixpoint sub_delimited (open close : N) (s : str) (inside : bool) : str :=
  match s with
  | [] => []
  | c :: s' =>
      if inside then
        if c =? close then SPACE :: sub_delimited open close s' false
        else sub_delimited open close s' true
      else if (c =? open) && existsb (N.eqb close) s'
      then sub_delimited open close s' true
      else c :: sub_delimited open close s' false
  end.

(** [re.finditer] of a pattern [[class]+]: the maximal runs of characters
    of the class, from left to right. [cur] is the run being read. *)
Fixpoint finditer (class : N → bool) (s : str) (cur : str) : list str :=
  match s with
  | [] => if truthy cur then [cur] else []
  | c :: s' =>
      if class c then finditer class s' (cur ++ [c])
      else (if truthy cur then [cur] else []) ++ finditer class s' []
  end.

(** ** Data of the pipeline *)

(** The language tag of a root, ["en"] or ["ru"]. *)
Inductive lang := EN | RU.

#[global] Instance lang_eq_dec : EqDecision lang.
Proof. solve_decision. Defined.

(** The parts of speech passed to the lemmatizer: ["n"], ["v"], ["a"], ["r"]. *)
Inductive wordnet_pos := Noun | Verb | Adj | Adv.

(** A parse of pymorphy2: its [normal_form], and the [word] of each form
    of its [lexeme]. *)
Record Parse := { normal_form : str; lexeme : list str }.

(** One record of the dataset, [{"hanzi": ..., "meanings": ...}]. *)
Record entry := { hanzi : str; meanings : list str }.

(** What [_collect_meanings] holds while it runs: the two memo tables,
    and a trace of the expansions computed and of the variant sets handed
    to the aggregation loop (the trace is not in the program: it records
    what the program does). *)
Inductive event :=
  | Expanded (l : lang) (word : str)
  | Served (l : lang) (word : str) (variants : gset str).

Record run_state := {
  en_cache : gmap str (gset str);
  ru_cache : gmap str (gset str);
  trace : list event
}.

Definition M (A : Type) : Type := run_state → A * run_state.
Definition ret {A} (a : A) : M A := λ st, (a, st).
Definition bind {A B} (m : M A) (k : A → M B) : M B :=
  λ st, let '(a, st') := m st in k a st'.

Notation "'do' x <- m ; k" := (bind m (λ x, k))
  (at level 10, x name, m at level 100, k at level 200).

(** [for x in xs: acc = body(x, acc)] *)
Fixpoint for_each {A S} (xs : list A) (body : A → S → M S) (acc : S) : M S :=
  match xs with
  | [] => ret acc
  | x :: xs' => do acc' <- body x acc; for_each xs' body acc'
  end.

(** ** Candidate extraction, [lib/parse_unihan.py] and [lib/parse_bkrs.py] *)

Definition STOPWORDS_EN : gset str :=
  list_to_set (py <$> ["a"; "an"; "and"; "as"; "at"; "be"; "by"; "for";
    "from"; "in"; "into"; "is"; "it"; "of"; "on"; "or"; "same"; "the";
    "to"; "with"]%string).

(** и в во на с со к ко по от до за для о об у из под над при это этот
    эта эти как или что не но *)
Definition STOPWORDS_RU : gset str :=
  list_to_set
    [ [0x438]; [0x432]; [0x432; 0x43E]; [0x43D; 0x430]; [0x441];
      [0x441; 0x43E]; [0x43A]; [0x43A; 0x43E]; [0x43F; 0x43E];
      [0x43E; 0x442]; [0x434; 0x43E]; [0x437; 0x430];
      [0x434; 0x43B; 0x44F]; [0x43E]; [0x43E; 0x431]; [0x443];
      [0x438; 0x437]; [0x43F; 0x43E; 0x434]; [0x43D; 0x430; 0x434];
      [0x43F; 0x440; 0x438]; [0x44D; 0x442; 0x43E];
      [0x44D; 0x442; 0x43E; 0x442]; [0x44D; 0x442; 0x430];
      [0x44D; 0x442; 0x438]; [0x43A; 0x430; 0x43A];
      [0x438; 0x43B; 0x438]; [0x447; 0x442; 0x43E]; [0x43D; 0x435];
      [0x43D; 0x43E] ].

(** [_WORD_RE], the class [[a-z]]. *)
Definition az (c : N) : bool := (0x61 <=? c) && (c <=? 0x7A).

(** [_PAREN_RE.sub(" ", s)] and [_BRACK_RE.sub(" ", s)]. *)
Definition PAREN_sub (s : str) : str := sub_delimited 0x28 0x29 s false.
Definition BRACK_sub (s : str) : str := sub_delimited 0x5B 0x5D s false.

(** [_dedupe_preserve], the same function in [prepare_dataset.py],
    [parse_unihan.py] and [parse_bkrs.py]. *)
Definition _dedupe_preserve (words : list str) : list str :=
  (foldl (λ '(seen, ordered) word,
            if decide (word ∈ seen) then (seen, ordered)
            else ({[ word ]} ∪ seen, ordered ++ [word]))
         ((∅ : gset str), []) words).2.

(** [parse_unihan._extract_english_words] *)
Definition _extract_english_words (text : str) : list str :=
  let normalized := str_lower text in
  let normalized := PAREN_sub normalized in
  let normalized := BRACK_sub normalized in
  let words :=
    filter (λ w, (w ∉ STOPWORDS_EN) ∧ (1 < length w)%nat)
           (finditer az normalized []) in
  _dedupe_preserve words.

Definition extract_english_words (text : str) : list str :=
  _extract_english_words text.

(** ** Reading the inputs, [parse_unihan.py] and [prepare_dataset.py] *)

(** [str.isspace()] on one code point. *)
Definition isspace (c : N) : bool :=
  ((0x9 <=? c) && (c <=? 0xD)) || ((0x1C <=? c) && (c <=? 0x20))
  || (c =? 0x85) || (c =? 0xA0) || (c =? 0x1680)
  || ((0x2000 <=? c) && (c <=? 0x200A)) || (c =? 0x2028) || (c =? 0x2029)
  || (c =? 0x202F) || (c =? 0x205F) || (c =? 0x3000).

(** [s.lstrip()] and [s.strip()] *)
Fixpoint lstrip (s : str) : str :=
  match s with
  | [] => []
  | c :: s' => if isspace c then lstrip s' else s
  end.

Definition strip (s : str) : str := rev (lstrip (rev (lstrip s))).

(** [s.split(sep)] for a separator of one character; [cur] is the field
    being read. *)
Fixpoint split_on (sep : N) (s : str) (cur : str) : list str :=
  match s with
  | [] => [cur]
  | c :: s' =>
      if c =? sep then cur :: split_on sep s' []
      else split_on sep s' (cur ++ [c])
  end.

Definition TAB : N := 0x9.

(** The body of the loop of [parse_unihan_definitions] over the lines of
    the file; [result] is a [defaultdict(list)]. *)
Definition parse_unihan_line (result : gmap str (list str)) (line : str)
    : gmap str (list str) :=
  let line := strip line in
  if negb (truthy line) then result
  else
    match split_on TAB line [] with
    | _ :: hanzi :: field :: definition :: _ =>
        if decide (field ≠ py "kDefinition") then result
        else
          <[ hanzi := _dedupe_preserve
                        (default [] (result !! hanzi)
                         ++ _extract_english_words definition) ]> result
    | _ => result
    end.

(** [parse_unihan_definitions], on the lines of the file. *)
Definition parse_unihan_definitions (lines : list str) : gmap str (list str) :=
  foldl parse_unihan_line ∅ lines.

(** [_load_frequency_list], on the rows [csv.DictReader] yields: a row
    maps a column name to its text, a column that is missing or holds
    [None] having no entry. *)
Definition _load_frequency_list (rows : list (gmap str str)) : list str :=
  foldl (λ hanzi_list row,
           match row !! py "hanzi_sc" with
           | Some hanzi =>
               if truthy hanzi then hanzi_list ++ [hanzi] else hanzi_list
           | None => hanzi_list
           end)
        [] rows.

(** [_load_frequency_english], on the same rows. *)
Definition _load_frequency_english (rows : list (gmap str str))
    : gmap str (list str) :=
  foldl (λ en_map row,
           let hanzi := default [] (row !! py "hanzi_sc") in
           let definition := default [] (row !! py "cc_cedict_definitions") in
           if negb (truthy hanzi) || negb (truthy definition) then en_map
           else
             let words := extract_english_words definition in
             if negb (bool_decide (words ≠ [])) then en_map
             else
               let existing := default [] (en_map !! hanzi) in
               <[ hanzi := _dedupe_preserve (existing ++ words) ]> en_map)
        ∅ rows.

(** The loop of [main] that adds the words of the frequency file to the
    map of the dictionary; [items] is [freq_en_map.items()]. *)
Definition merge_frequency_english (en_map : gmap str (list str))
    (items : list (str * list str)) : gmap str (list str) :=
  foldl (λ en_map '(hanzi, words),
           <[ hanzi := _dedupe_preserve (default [] (en_map !! hanzi) ++ words) ]>
             en_map)
        en_map items.

(** [_summarize]: the three counts it prints. *)
Definition total_hanzi (dataset : list entry) : nat := length dataset.

Definition total_meanings (dataset : list entry) : nat :=
  foldr (λ item n, (length (meanings item) + n)%nat) 0%nat dataset.

Definition with_suffix (dataset : list entry) : nat :=
  foldr (λ item n,
           (length (filter (λ meaning, HASH ∈ meaning) (meanings item)) + n)%nat)
        0%nat dataset.

(** [f"{n}"]: decimal, without padding. *)
Definition format_d (n : nat) : str :=
  digit_char <$> rev (digits_rev (S n) n).

(** [sep.join(words)] *)
Fixpoint join (sep : str) (words : list str) : str :=
  match words with
  | [] => []
  | [w] => w
  | w :: ws => w ++ sep ++ join sep ws
  end.

(** [_summarize]: the lines it prints. *)
Definition _summarize (dataset : list entry) : list str :=
  [ py "Hanzi count: " ++ format_d (total_hanzi dataset);
    py "Total meanings: " ++ format_d (total_meanings dataset);
    py "Meanings with suffix encoding: " ++ format_d (with_suffix dataset);
    py "Sample entries:" ]
  ++ ((λ item,
         let sample := join (py ", ") (slice_to (meanings item) 10) in
         py "- " ++ hanzi item ++ py ": " ++ sample)
      <$> slice_to dataset 5).

(** ** Sample collaborators

    Small stand-ins for the lemmatizer, the inflection tables and the
    morphological analyzer, used by the examples at the end. *)

(** [studies] has the lemma [study] as a noun and as a verb. *)
Definition sample_lemmatize (word : str) (pos : wordnet_pos) : str :=
  if decide (word = py "studies") then
    match pos with Noun | Verb => py "study" | Adj | Adv => word end
  else word.

Definition sample_inflections (lemma : str) : list (list str) :=
  if decide (lemma = py "study")
  then [[py "studies"]; [py "studied"; py "studying"; py "study"]]
  else if decide (lemma = py "learn")
  then [[py "learns"; py "learned"; py "learning"]]
  else [].

(** книги: the lemma книга with the forms книга, книги, книге. *)
Definition sample_parse (word : str) : list Parse :=
  if decide (word = [0x43A; 0x43D; 0x438; 0x433; 0x438]) then
    [ {| normal_form := [0x43A; 0x43D; 0x438; 0x433; 0x430];
         lexeme := [ [0x43A; 0x43D; 0x438; 0x433; 0x430];
                     [0x43A; 0x43D; 0x438; 0x433; 0x438];
                     [0x43A; 0x43D; 0x438; 0x433; 0x435] ] |} ]
  else [].

(** А..Я, а..я, Ё, ё. *)
Definition sample_ru_class (c : N) : bool :=
  ((0x410 <=? c) && (c <=? 0x44F)) || (c =? 0x401) || (c =? 0x451).

Section Pipeline.

(** *** The collaborators *)

(** Iteration over a set visits every member once, in an order that is
    not the program's to choose. *)
Variable set_iter : gset str → list str.
Hypothesis set_iter_perm : ∀ s, set_iter s ≡ₚ elements s.

(** nltk: whether [nltk] and [WordNetLemmatizer] were imported, whether
    [nltk.data.find("corpora/wordnet")] finds the corpus, and
    [_LEMMATIZER.lemmatize(word, pos=pos)]. *)
Variable nltk_imported : bool.
Variable wordnet_found : bool.
Variable wordnet_lemmatize : str → wordnet_pos → str.

(** lemminflect: the values of [getAllInflections(lemma)]. *)
Variable getAllInflections : str → list (list str).

(** pymorphy2: [_MORPH.parse(word)]. *)
Variable MORPH_parse : str → list Parse.

(** The characters [_RU_WORD_RE] takes for [[а-яё]] when it ignores case,
    as the regular expression engine decides it. *)
Variable RU_WORD_class : N → bool.

(** [parse_bkrs._extract_russian_words] *)
Definition _extract_russian_words (text : str) : list str :=
  let words :=
    str_lower <$>
      filter (λ w, (str_lower w ∉ STOPWORDS_RU) ∧ (1 < length w)%nat)
             (finditer RU_WORD_class text []) in
  _dedupe_preserve words.

(** *** [lib/morph_en.py] *)

Definition _wordnet_available : bool :=
  if negb nltk_imported then false else wordnet_found.

(** [lemmatize_variants], imported as [en_lemmatize_variants]; the
    [lru_cache] around it does not change what it returns. *)
Definition en_lemmatize_variants (word : str) : gset str :=
  if negb nltk_imported || negb _wordnet_available then {[ word ]}
  else
    foldl (λ lemmas pos,
             let lemma := wordnet_lemmatize word pos in
             if truthy lemma then {[ lemma ]} ∪ lemmas else lemmas)
          {[ word ]} [Noun; Verb; Adj; Adv].

(** [generate_inflections], imported as [generate_en_inflections]. *)
Definition generate_en_inflections (word : str) : gset str :=
  foldl (λ inflections lemma,
           foldl (λ inflections forms, inflections ∪ list_to_set forms)
                 ({[ lemma ]} ∪ inflections) (getAllInflections lemma))
        ∅ (set_iter (en_lemmatize_variants word)).

(** *** [lib/morph_ru.py] *)

Definition generate_lexeme_forms (word : str) : str * gset str :=
  match MORPH_parse word with
  | [] => (word, {[ word ]})
  | best :: _ =>
      let lemma :=
        if truthy (normal_form best) then normal_form best else word in
      (lemma,
       foldl (λ forms w, if truthy w then {[ w ]} ∪ forms else forms)
             {[ lemma ]} (lexeme best))
  end.

(** [get_lemma] *)
Definition get_lemma (word : str) : str :=
  match MORPH_parse word with
  | [] => word
  | parsed0 :: _ =>
      if truthy (normal_form parsed0) then normal_form parsed0 else word
  end.

(** *** [prepare_dataset.py] *)

Definition _expand_english_word (word : str) : gset str :=
  foldl (λ variants lemma,
           let forms := generate_en_inflections lemma in
           variants ∪ encode_en_suffixes lemma (set_iter forms) true)
        ∅ (set_iter (en_lemmatize_variants word)).

Definition _expand_russian_word (word : str) : gset str :=
  let '(lemma, forms) := generate_lexeme_forms word in
  encode_ru_suffixes lemma (set_iter forms) true.

(** The test of [_select_roots] on one character of a word. *)
Definition is_ru_char (ch : N) : bool :=
  (str_le [0x430] (lower_char ch) && str_le (lower_char ch) [0x44F])
  || bool_decide (lower_char ch = [0x451]).

Definition _select_roots (en_roots ru_roots : list str) (max_roots : Z)
    : list (str * lang) :=
  let combined := _dedupe_preserve (en_roots ++ ru_roots) in
  let selected := slice_to combined max_roots in
  foldl (λ tagged word,
           let lang := if existsb is_ru_char word then RU else EN in
           tagged ++ [(word, lang)])
        [] selected.

(** The default [max_roots=3]. *)
Definition default_max_roots : Z := 3.

(** [m.get(key, [])] *)
Definition get_or_empty (m : gmap str (list str)) (key : str) : list str :=
  default [] (m !! key).

(** The cache lookup of [_collect_meanings]: fill the table of the
    language on a miss, then read it. *)
Definition cached_variants (word : str) (l : lang) : M (gset str) :=
  λ st,
    match l with
    | RU =>
        let st :=
          if decide (word ∈ dom (ru_cache st)) then st
          else {| en_cache := en_cache st;
                  ru_cache := <[ word := _expand_russian_word word ]> (ru_cache st);
                  trace := trace st ++ [Expanded RU word] |} in
        let variants := default ∅ (ru_cache st !! word) in
        (variants,
         {| en_cache := en_cache st; ru_cache := ru_cache st;
            trace := trace st ++ [Served RU word variants] |})
    | EN =>
        let st :=
          if decide (word ∈ dom (en_cache st)) then st
          else {| en_cache := <[ word := _expand_english_word word ]> (en_cache st);
                  ru_cache := ru_cache st;
                  trace := trace st ++ [Expanded EN word] |} in
        let variants := default ∅ (en_cache st !! word) in
        (variants,
         {| en_cache := en_cache st; ru_cache := ru_cache st;
            trace := trace st ++ [Served EN word variants] |})
    end.

(** The loop over the variants of one root: [(meanings, seen_meanings)]. *)
Definition add_variants (variants : list str)
    (acc : list str * gset str) : list str * gset str :=
  foldl (λ '(meanings, seen_meanings) variant,
           if decide (variant ∈ seen_meanings) then (meanings, seen_meanings)
           else (meanings ++ [variant], {[ variant ]} ∪ seen_meanings))
        acc variants.

(** The body of the loop over the characters. *)
Definition collect_one (en_map ru_map : gmap str (list str))
    (hanzi : str) (dataset : list entry) : M (list entry) :=
  let selected_roots :=
    _select_roots (get_or_empty en_map hanzi) (get_or_empty ru_map hanzi)
                  default_max_roots in
  do acc <- for_each selected_roots
              (λ '(word, l) acc,
                 do variants <- cached_variants word l;
                 ret (add_variants (set_iter variants) acc))
              ([], ∅);
  ret (dataset ++ [{| hanzi := hanzi; meanings := acc.1 |}]).

Definition initial_state : run_state :=
  {| en_cache := ∅; ru_cache := ∅; trace := [] |}.

(** [_collect_meanings], with the state it ends in. *)
Definition collect_run (hanzi_list : list str)
    (en_map ru_map : gmap str (list str)) : list entry * run_state :=
  for_each hanzi_list (collect_one en_map ru_map) [] initial_state.

Definition _collect_meanings (hanzi_list : list str)
    (en_map ru_map : gmap str (list str)) : list entry :=
  (collect_run hanzi_list en_map ru_map).1.

(** [_write_lists]: the calls of [_write_json] it makes, as the file name
    under [out_dir] and the payload of each. *)
Definition chunk_size : nat := 100.

Definition list_filename (list_number : nat) : str :=
  py "list_" ++ format_03d list_number ++ py ".json".

Definition _write_lists (dataset : list entry) : list (str * list entry) :=
  (λ idx,
     let chunk := slice dataset idx (idx + chunk_size) in
     let list_number := (idx `div` chunk_size + 1)%nat in
     (list_filename list_number, chunk))
  <$> range_step (length dataset) chunk_size.

(** *** Definitions the statements below are written with *)

(** The token the codec emits for one form, if any. *)
Definition emits (lemma : str) (drop_non_prefix : bool) (form t : str) : Prop :=
  (form = lemma ∧ t = lemma)
  ∨ (∃ suffix, form = lemma ++ suffix
       ∧ t = if truthy suffix then lemma ++ HASH :: suffix else lemma)
  ∨ (startswith form lemma = false ∧ drop_non_prefix = false ∧ t = form).

(** Deduplication that keeps the first occurrence of every word. *)
Fixpoint keep_first (l : list str) : list str :=
  match l with
  | [] => []
  | x :: l' => x :: filter (λ y, y ≠ x) (keep_first l')
  end.

(** Modelled from the spec: the decoder of a token by a reader that is not
    told the lemma, which is not among the scripts. A token with no [#]
    is a bare lemma and stands for itself; a token [lemma#suffix] stands
    for [lemma + suffix], the lemma being what precedes the first [#]. *)
Fixpoint decode (token : str) : str :=
  match token with
  | [] => []
  | c :: rest => if c =? HASH then rest else c :: decode rest
  end.


(** The letters of the Russian alphabet, in either case: А..Я, а..я, Ё, ё. *)
Definition russian_letter (ch : N) : Prop :=
  (0x410 ≤ ch ∧ ch ≤ 0x44F) ∨ ch = 0x401 ∨ ch = 0x451.

(** The code points of the Cyrillic block of Unicode. *)
Definition cyrillic_code_point (ch : N) : Prop := 0x400 ≤ ch ∧ ch ≤ 0x4FF.

(** The tag [_select_roots] gives a word. *)
Definition tag_of (word : str) : lang :=
  if existsb is_ru_char word then RU else EN.

(** The expansion of a root, by its tag. *)
Definition expand (l : lang) (word : str) : gset str :=
  match l with
  | RU => _expand_russian_word word
  | EN => _expand_english_word word
  end.

(** The roots selected for a character. *)
Definition roots_of (en_map ru_map : gmap str (list str)) (hanzi : str)
    : list (str * lang) :=
  _select_roots (get_or_empty en_map hanzi) (get_or_empty ru_map hanzi)
                default_max_roots.

(** [_collect_meanings] without the memo tables: the expansion is computed
    again at every request. *)
Definition collect_meanings_unmemoized (hanzi_list : list str)
    (en_map ru_map : gmap str (list str)) : list entry :=
  foldl (λ dataset hanzi,
           let acc :=
             foldl (λ acc '(word, l),
                      add_variants (set_iter (expand l word)) acc)
                   ([], ∅) (roots_of en_map ru_map hanzi) in
           dataset ++ [{| hanzi := hanzi; meanings := acc.1 |}])
        [] hanzi_list.

(** The keys the expansion was computed for, in the order of the calls. *)
Definition expanded_keys (tr : list event) : list (lang * str) :=
  omap (λ e, match e with
             | Expanded l w => Some (l, w)
             | Served _ _ _ => None
             end) tr.

(** The number a string of decimal digits stands for. *)
Definition decimal_value (s : str) : nat :=
  foldl (λ v c, 10 * v + N.to_nat (c - 0x30))%nat 0%nat s.


(** The memo table of a language. *)
Definition cache_of (l : lang) (st : run_state) : gmap str (gset str) :=
  match l with RU => ru_cache st | EN => en_cache st end.

(** What holds of the state between two requests. *)
Record state_ok (st : run_state) : Prop := {
  ok_cached : ∀ l w v, cache_of l st !! w = Some v → v = expand l w;
  ok_keys : ∀ l w, (l, w) ∈ expanded_keys (trace st) ↔ w ∈ dom (cache_of l st);
  ok_once : NoDup (expanded_keys (trace st));
  ok_served : ∀ l w v, Served l w v ∈ trace st → v = expand l w
}.

(** The number a list of digits stands for, least significant first. *)
Fixpoint value_le (ds : list nat) : nat :=
  match ds with
  | [] => 0
  | d :: ds' => d + 10 * value_le ds'
  end.

(** What a line of the dictionary file contributes: the character and
    the definition, when the line is taken. *)
Definition unihan_record (line : str) : option (str * str) :=
  match split_on TAB (strip line) [] with
  | _ :: hanzi :: field :: definition :: _ =>
      if decide (field = py "kDefinition") then Some (hanzi, definition)
      else None
  | _ => None
  end.

(** The texts a list of keyed texts holds for one key, in order. *)
Definition texts_of {A} (key : str) (records : list (str * A)) : list A :=
  omap (λ r, if decide (r.1 = key) then Some r.2 else None) records.

(** What a row of the frequency file contributes to the English map. *)
Definition frequency_record (row : gmap str str) : option (str * list str) :=
  let hanzi := default [] (row !! py "hanzi_sc") in
  let definition := default [] (row !! py "cc_cedict_definitions") in
  if truthy hanzi && truthy definition
     && bool_decide (extract_english_words definition ≠ [])
  then Some (hanzi, extract_english_words definition)
  else None.

(** The keys the aggregation loop asked the memo tables for, in order. *)
Definition requested_keys (tr : list event) : list (lang * str) :=
  omap (λ e, match e with
             | Served l w _ => Some (l, w)
             | Expanded _ _ => None
             end) tr.

(** * Properties *)

(** The facts about the codec, the root selector, the chunk writer and
    the English extraction hold whatever the collaborators are: their
    proofs start by forgetting them. *)
Ltac forget_oracles :=
  try clear set_iter_perm; try clear set_iter; try clear nltk_imported;
  try clear wordnet_found; try clear wordnet_lemmatize;
  try clear getAllInflections; try clear MORPH_parse;
  try clear RU_WORD_class.

(** ** The suffix codec *)

Lemma startswith_app s p : startswith s p = true ↔ ∃ t, s = p ++ t.
Proof.
  revert s; induction p as [|c p IH]; intros s; simpl.
  - split; [intros _; by exists s | done].
  - destruct s as [|d s].
    + split; [done | by intros [t Ht]].
    + rewrite andb_true_iff, N.eqb_eq, IH. split.
      * intros [-> [t ->]]. by exists t.
      * intros [t Ht]. simplify_eq. split; [done | by exists t].
Qed.

Example startswith_ex : startswith (py "studies") (py "stud") = true.
Proof. reflexivity. Qed.

Lemma startswith_drop s p :
  startswith s p = true → s = p ++ drop (length p) s.
Proof.
  intros [t ->]%startswith_app. by rewrite drop_app_length.
Qed.

Lemma encode_en_step_elem lemma d acc form t :
  t ∈ encode_en_step lemma d acc form ↔ t ∈ acc ∨ emits lemma d form t.
Proof.
  unfold encode_en_step, emits.
  destruct (decide (form = lemma)) as [->|Hne].
  { rewrite elem_of_union, elem_of_singleton. split.
    - intros [->|?]; [right; by left | by left].
    - intros [?|[[_ ->]|[(suffix & Hs & ->)|(Hs & _)]]]; [by right | by left | |].
      + assert (suffix = []) as ->; [|by left].
        apply (app_inv_head lemma). by rewrite <- Hs, app_nil_r.
      + assert (startswith lemma lemma = true); [|congruence].
        apply startswith_app. exists []. by rewrite app_nil_r. }
  destruct (startswith form lemma) eqn:Hsw.
  { rewrite elem_of_union, elem_of_singleton. split.
    - intros [->|?]; [|by left]. right; right; left.
      exists (drop (length lemma) form). split; [by apply startswith_drop|done].
    - intros [?|[[? _]|[(suffix & -> & ->)|(? & _)]]]; [by right | done | | done].
      left. by rewrite drop_app_length. }
  destruct d; simpl.
  - split; [by left|].
    intros [?|[[? _]|[(suffix & -> & _)|(_ & ? & _)]]]; [done | done | | done].
    assert (startswith (lemma ++ suffix) lemma = true); [|congruence].
    apply startswith_app. by exists suffix.
  - rewrite elem_of_union, elem_of_singleton. split.
    + intros [->|?]; [|by left]. right; right; right. done.
    + intros [?|[[? _]|[(suffix & -> & _)|(_ & _ & ->)]]]; [by right | done | | by left].
      assert (startswith (lemma ++ suffix) lemma = true); [|congruence].
      apply startswith_app. by exists suffix.
Qed.

Lemma encode_en_fold_elem lemma d forms acc t :
  t ∈ foldl (encode_en_step lemma d) acc forms
  ↔ t ∈ acc ∨ ∃ form, form ∈ forms ∧ emits lemma d form t.
Proof.
  revert acc; induction forms as [|f forms IH]; intros acc; simpl.
  - split; [by left|]. intros [?|(f & Hf & _)]; [done|]. by apply elem_of_nil in Hf.
  - rewrite IH, encode_en_step_elem. split.
    + intros [[?|?]|(f' & Hf' & He)].
      * by left.
      * right. exists f. split; [left|done].
      * right. exists f'. split; [by right|done].
    + intros [?|(f' & Hf' & He)]; [by left; left|].
      apply elem_of_cons in Hf' as [->|Hf'].
      * left. by right.
      * right. by exists f'.
Qed.

Lemma encode_en_suffixes_elem lemma forms d t :
  t ∈ encode_en_suffixes lemma forms d
  ↔ ∃ form, form ∈ forms ∧ emits lemma d form t.
Proof.
  unfold encode_en_suffixes. rewrite encode_en_fold_elem. split.
  - intros [H|H]; [by apply not_elem_of_empty in H|done].
  - by right.
Qed.

Lemma encode_ru_en lemma forms d :
  encode_ru_suffixes lemma forms d = encode_en_suffixes lemma forms d.
Proof. reflexivity. Qed.

(** C2. For every lemma, list of forms and [drop_non_prefix], the tokens of
    [encode_suffix_variants] (both copies) are exactly those emitted for
    the forms: the bare lemma for a form equal to the lemma, [lemma#suffix]
    for a form [lemma + suffix] (the bare lemma when the suffix is empty),
    the form itself for a form that does not start with the lemma when
    [drop_non_prefix] is false, nothing for it when true; and the set is
    the same for any reordering of the forms. *)
Theorem encode_suffix_variants_spec (lemma : str) (forms : list str)
    (drop_non_prefix : bool) :
  (∀ t, t ∈ encode_en_suffixes lemma forms drop_non_prefix
        ↔ ∃ form, form ∈ forms ∧
            ((form = lemma ∧ t = lemma)
             ∨ (∃ suffix, form = lemma ++ suffix
                  ∧ t = if truthy suffix then lemma ++ HASH :: suffix
                        else lemma)
             ∨ (startswith form lemma = false ∧ drop_non_prefix = false
                  ∧ t = form)))
  ∧ encode_ru_suffixes lemma forms drop_non_prefix
    = encode_en_suffixes lemma forms drop_non_prefix
  ∧ (∀ forms', forms ≡ₚ forms' →
       encode_en_suffixes lemma forms' drop_non_prefix
       = encode_en_suffixes lemma forms drop_non_prefix).
Proof.
  split; [|split].
  - intros t. apply encode_en_suffixes_elem.
  - apply encode_ru_en.
  - intros forms' Hperm. apply set_eq. intros t.
    rewrite !encode_en_suffixes_elem.
    by setoid_rewrite Hperm.
Qed.

(** *** Decoding *)







(** ** The root selector *)

Lemma keep_first_elem (l : list str) (x : str) : x ∈ keep_first l ↔ x ∈ l.
Proof.
  induction l as [|y l IH]; [done|]. simpl.
  rewrite !elem_of_cons, list_elem_of_filter, IH.
  destruct (decide (x = y)) as [->|Hne]; [split; by left|].
  split; [intros [?|[_ ?]]; [done|by right]|intros [?|?]; [done|by right]].
Qed.

Lemma keep_first_NoDup (l : list str) : NoDup (keep_first l).
Proof.
  induction l as [|y l IH]; simpl; [constructor|].
  constructor.
  - rewrite list_elem_of_filter. by intros [? _].
  - by apply NoDup_filter.
Qed.

Lemma dedupe_fold (l : list str) (seen : gset str) (ordered : list str) :
  (foldl (λ '(seen, ordered) word,
            if decide (word ∈ seen) then (seen, ordered)
            else ({[ word ]} ∪ seen, ordered ++ [word]))
         (seen, ordered) l).2
  = ordered ++ filter (λ y, y ∉ seen) (keep_first l).
Proof.
  forget_oracles.
  revert seen ordered; induction l as [|x l IH]; intros seen ordered; simpl.
  - by rewrite app_nil_r.
  - destruct (decide (x ∈ seen)) as [Hx|Hx]; rewrite IH.
    + rewrite filter_cons_False by (intros ?; done).
      rewrite list_filter_filter. f_equal.
      apply list_filter_iff. intros y.
      split; [intros Hy; split; [done|by intros ->]|by intros [? _]].
    + rewrite filter_cons_True by done.
      rewrite list_filter_filter, <- app_assoc. simpl. do 2 f_equal.
      apply list_filter_iff. intros y. set_solver.
Qed.

Lemma filter_all {A} (P : A → Prop) `{!∀ x, Decision (P x)} (l : list A) :
  (∀ x, P x) → filter P l = l.
Proof.
  intros HP. induction l as [|x l IH]; [done|].
  rewrite filter_cons_True by done. by rewrite IH.
Qed.

Lemma dedupe_preserve_keep_first (l : list str) :
  _dedupe_preserve l = keep_first l.
Proof.
  unfold _dedupe_preserve. rewrite dedupe_fold. simpl.
  apply filter_all. intros x. apply not_elem_of_empty.
Qed.

Lemma foldl_snoc_map {A B} (f : A → B) (l : list A) (init : list B) :
  foldl (λ acc x, acc ++ [f x]) init l = init ++ map f l.
Proof.
  revert init; induction l as [|x l IH]; intros init; simpl.
  - by rewrite app_nil_r.
  - by rewrite IH, <- app_assoc.
Qed.

Lemma select_roots_unfold (en_roots ru_roots : list str) (max_roots : Z) :
  _select_roots en_roots ru_roots max_roots
  = map (λ w, (w, tag_of w))
        (slice_to (keep_first (en_roots ++ ru_roots)) max_roots).
Proof.
  unfold _select_roots. rewrite dedupe_preserve_keep_first.
  by rewrite (foldl_snoc_map (λ w, (w, tag_of w))).
Qed.

Lemma select_roots_words (en_roots ru_roots : list str) (max_roots : Z) :
  (_select_roots en_roots ru_roots max_roots).*1
  = slice_to (keep_first (en_roots ++ ru_roots)) max_roots.
Proof.
  rewrite select_roots_unfold.
  induction (slice_to _ _) as [|w ws IH]; [done|]. simpl. by f_equal.
Qed.


(** *** Script detection *)

Lemma str_le_single_l (a b : N) (l : str) : str_le [a] (b :: l) = (a <=? b).
Proof.
  unfold str_le.
  destruct (N.ltb_spec a b), (N.eqb_spec a b), (N.leb_spec a b); done || lia.
Qed.

Lemma str_le_single_r (a b : N) (l : str) :
  str_le (b :: l) [a] = if l is [] then b <=? a else b <? a.
Proof.
  unfold str_le.
  destruct (N.ltb_spec b a), (N.eqb_spec b a), (N.leb_spec b a), l;
    done || lia.
Qed.

Lemma is_ru_char_spec (ch : N) : is_ru_char ch = true ↔ russian_letter ch.
Proof.
  unfold is_ru_char, russian_letter, lower_char.
  repeat case_match;
    rewrite str_le_single_l, str_le_single_r, orb_true_iff, andb_true_iff,
      bool_decide_eq_true, ?N.leb_le, ?N.ltb_lt;
    repeat match goal with
    | H : _ && _ = true |- _ => apply andb_true_iff in H as [? ?]
    | H : _ && _ = false |- _ => apply andb_false_iff in H
    | H : (_ <=? _) = true |- _ => apply N.leb_le in H
    | H : (_ =? _) = true |- _ => apply N.eqb_eq in H
    | H : (_ =? _) = false |- _ => apply N.eqb_neq in H
    end;
    rewrite ?N.leb_gt in *;
    (split; [intros [[? ?]|?]; simplify_eq; lia
            |intros ?; destruct (decide (ch = 0x401)), (decide (ch = 0x451));
             [right; f_equal; lia..|left; lia]]).
Qed.

Lemma tag_of_RU (word : str) :
  tag_of word = RU ↔ ∃ ch, ch ∈ word ∧ russian_letter ch.
Proof.
  unfold tag_of. destruct (existsb is_ru_char word) eqn:He.
  - split; [intros _|done].
    apply existsb_exists in He as (ch & Hin & Hch).
    exists ch. split; [by apply list_elem_of_In|by apply is_ru_char_spec].
  - split; [done|]. intros (ch & Hin & Hch). exfalso.
    assert (existsb is_ru_char word = true); [|congruence].
    apply existsb_exists. exists ch.
    split; [by apply list_elem_of_In|by apply is_ru_char_spec].
Qed.

(** C5, as amended. A word selected by [_select_roots] is tagged ["ru"]
    if and only if it contains a letter of the Russian alphabet, in either
    case (А..Я, а..я, Ё, ё), and ["en"] otherwise. *)
Theorem select_roots_tag (en_roots ru_roots : list str) (max_roots : Z)
    (word : str) (l : lang) :
  (word, l) ∈ _select_roots en_roots ru_roots max_roots →
  (l = RU ↔ ∃ ch, ch ∈ word ∧ russian_letter ch)
  ∧ (l = EN ↔ ∀ ch, ch ∈ word → ¬ russian_letter ch).
Proof.
  rewrite select_roots_unfold. intros Hin.
  apply list_elem_of_fmap in Hin as (w & [= -> ->] & _).
  pose proof (tag_of_RU w) as Hru. split; [done|].
  destruct (tag_of w); split; try done.
  - intros _ ch Hch Hr. assert (EN = RU); [|done]. apply Hru. by exists ch.
  - intros H. exfalso. destruct Hru as [(ch & Hch & Hr) _]; [done|]. by apply (H ch).
Qed.

(** ** The meaning aggregator *)

(** The loop over the variants of a root keeps the first occurrence of
    every token not seen so far. *)
Lemma add_variants_fold (vs meanings : list str) (seen : gset str) :
  add_variants vs (meanings, seen)
  = (meanings ++ filter (λ y, y ∉ seen) (keep_first vs),
     list_to_set vs ∪ seen).
Proof.
  forget_oracles.
  unfold add_variants.
  revert meanings seen; induction vs as [|x vs IH]; intros meanings seen; simpl.
  - rewrite app_nil_r. f_equal. set_solver.
  - destruct (decide (x ∈ seen)) as [Hx|Hx]; rewrite IH; f_equal.
    + rewrite filter_cons_False by (intros ?; done).
      rewrite list_filter_filter. f_equal.
      apply list_filter_iff. intros y.
      split; [intros Hy; split; [done|by intros ->]|by intros [? _]].
    + set_solver.
    + rewrite filter_cons_True by done.
      rewrite list_filter_filter, <- app_assoc. simpl. do 2 f_equal.
      apply list_filter_iff. intros y. set_solver.
    + set_solver.
Qed.

Lemma add_variants_app (vs ws : list str) (acc : list str * gset str) :
  add_variants (vs ++ ws) acc = add_variants ws (add_variants vs acc).
Proof. unfold add_variants. apply foldl_app. Qed.

Lemma add_variants_roots (f : str * lang → list str)
    (roots : list (str * lang)) (acc : list str * gset str) :
  foldl (λ acc '(word, l), add_variants (f (word, l)) acc) acc roots
  = add_variants (concat (f <$> roots)) acc.
Proof.
  revert acc; induction roots as [|[w l] roots IH]; intros acc; simpl; [done|].
  by rewrite IH, add_variants_app.
Qed.

Lemma add_variants_keep_first (vs : list str) :
  (add_variants vs ([], ∅)).1 = keep_first vs.
Proof.
  rewrite add_variants_fold. simpl.
  apply filter_all. intros x. apply not_elem_of_empty.
Qed.

Lemma foldl_snoc_fmap {A B} (f : A → B) (l : list A) (init : list B) :
  foldl (λ acc x, acc ++ [f x]) init l = init ++ (f <$> l).
Proof. apply foldl_snoc_map. Qed.

Lemma foldl_ext_eq {A B} (f g : B → A → B) (l : list A) (b : B) :
  (∀ b x, f b x = g b x) → foldl f b l = foldl g b l.
Proof.
  intros Hfg. revert b; induction l as [|x l IH]; intros b; simpl; [done|].
  by rewrite Hfg, IH.
Qed.

(** The tokens of a character, as the design states them. *)
Lemma unmemoized_spec (hanzi_list : list str)
    (en_map ru_map : gmap str (list str)) :
  collect_meanings_unmemoized hanzi_list en_map ru_map
  = (λ h, {| hanzi := h;
             meanings :=
               keep_first
                 (concat ((λ '(w, l), set_iter (expand l w))
                            <$> roots_of en_map ru_map h)) |})
    <$> hanzi_list.
Proof.
  unfold collect_meanings_unmemoized.
  rewrite <- (app_nil_l (_ <$> hanzi_list)), <- foldl_snoc_fmap.
  apply foldl_ext_eq. intros dataset h. do 3 f_equal.
  rewrite <- add_variants_keep_first. f_equal.
  rewrite <- add_variants_roots. apply foldl_ext_eq. by intros acc [w l].
Qed.

(** *** The memo tables *)

Lemma expanded_keys_app (tr1 tr2 : list event) :
  expanded_keys (tr1 ++ tr2) = expanded_keys tr1 ++ expanded_keys tr2.
Proof. apply omap_app. Qed.

Lemma initial_state_ok : state_ok initial_state.
Proof.
  split; simpl.
  - intros [] w v; simpl; by rewrite lookup_empty.
  - intros [] w; simpl; rewrite dom_empty_L; split; intros H;
      by (apply elem_of_nil in H || apply not_elem_of_empty in H).
  - constructor.
  - intros l w v H. by apply elem_of_nil in H.
Qed.

Lemma cached_variants_ok (word : str) (l : lang) (st : run_state) :
  state_ok st →
  (cached_variants word l st).1 = expand l word
  ∧ state_ok (cached_variants word l st).2.
Proof.
  intros [Hc Hk Ho Hs]. unfold cached_variants.
  destruct l.
  - (* en *)
    destruct (decide (word ∈ dom (en_cache st))) as [Hin|Hnin]; simpl.
    + apply elem_of_dom in Hin as [v Hv]. rewrite Hv. simpl.
      pose proof (Hc EN word v Hv) as ->.
      split; [done|]. split; simpl.
      * done.
      * intros l w. rewrite expanded_keys_app. simpl. rewrite app_nil_r. apply Hk.
      * rewrite expanded_keys_app. simpl. by rewrite app_nil_r.
      * intros l w v' [H|H%list_elem_of_singleton]%elem_of_app; [by apply Hs|].
        by simplify_eq.
    + rewrite lookup_insert_eq. simpl. split; [done|]. split; simpl.
      * intros [] w v; simpl; [|apply (Hc RU)].
        rewrite lookup_insert. case_decide; [by intros [= <-]; subst|apply (Hc EN)].
      * intros l w. rewrite !expanded_keys_app. simpl. rewrite app_nil_r.
        rewrite elem_of_app, list_elem_of_singleton, Hk.
        destruct l; simpl.
        -- rewrite dom_insert_L, elem_of_union, elem_of_singleton.
           split; [intros [?|[= ->]]; [by right|by left]
                  |intros [->|?]; [by right|by left]].
        -- split; [by intros [?|[=]]|by left].
      * rewrite !expanded_keys_app. simpl. rewrite app_nil_r.
        apply NoDup_app. split; [done|]. split; [|apply NoDup_singleton].
        intros [l w] Hin [= -> ->]%list_elem_of_singleton.
        by apply (proj1 (Hk _ _)) in Hin.
      * intros l w v' [[H|H%list_elem_of_singleton]%elem_of_app
                      |H%list_elem_of_singleton]%elem_of_app;
          [by apply Hs|done|by simplify_eq].
  - (* ru *)
    destruct (decide (word ∈ dom (ru_cache st))) as [Hin|Hnin]; simpl.
    + apply elem_of_dom in Hin as [v Hv]. rewrite Hv. simpl.
      pose proof (Hc RU word v Hv) as ->.
      split; [done|]. split; simpl.
      * done.
      * intros l w. rewrite expanded_keys_app. simpl. rewrite app_nil_r. apply Hk.
      * rewrite expanded_keys_app. simpl. by rewrite app_nil_r.
      * intros l w v' [H|H%list_elem_of_singleton]%elem_of_app; [by apply Hs|].
        by simplify_eq.
    + rewrite lookup_insert_eq. simpl. split; [done|]. split; simpl.
      * intros [] w v; simpl; [apply (Hc EN)|].
        rewrite lookup_insert. case_decide; [by intros [= <-]; subst|apply (Hc RU)].
      * intros l w. rewrite !expanded_keys_app. simpl. rewrite app_nil_r.
        rewrite elem_of_app, list_elem_of_singleton, Hk.
        destruct l; simpl.
        -- split; [by intros [?|[=]]|by left].
        -- rewrite dom_insert_L, elem_of_union, elem_of_singleton.
           split; [intros [?|[= ->]]; [by right|by left]
                  |intros [->|?]; [by right|by left]].
      * rewrite !expanded_keys_app. simpl. rewrite app_nil_r.
        apply NoDup_app. split; [done|]. split; [|apply NoDup_singleton].
        intros [l w] Hin [= -> ->]%list_elem_of_singleton.
        by apply (proj1 (Hk _ _)) in Hin.
      * intros l w v' [[H|H%list_elem_of_singleton]%elem_of_app
                      |H%list_elem_of_singleton]%elem_of_app;
          [by apply Hs|done|by simplify_eq].
Qed.

(** A loop whose body keeps the invariant and computes a pure step. *)
Lemma for_each_ok {A S} (body : A → S → M S) (step : S → A → S)
    (xs : list A) (acc : S) (st : run_state) :
  (∀ x acc st, state_ok st →
     (body x acc st).1 = step acc x ∧ state_ok (body x acc st).2) →
  state_ok st →
  (for_each xs body acc st).1 = foldl step acc xs
  ∧ state_ok (for_each xs body acc st).2.
Proof.
  intros Hbody. revert acc st; induction xs as [|x xs IH]; intros acc st Hst.
  - done.
  - simpl. unfold bind.
    destruct (Hbody x acc st Hst) as [Hval Hst'].
    destruct (body x acc st) as [acc' st']. simpl in *. subst acc'.
    by apply IH.
Qed.

Lemma collect_one_ok (en_map ru_map : gmap str (list str)) (h : str)
    (dataset : list entry) (st : run_state) :
  state_ok st →
  (collect_one en_map ru_map h dataset st).1
  = dataset ++ [{| hanzi := h;
                   meanings :=
                     (foldl (λ acc '(word, l),
                               add_variants (set_iter (expand l word)) acc)
                            ([], ∅) (roots_of en_map ru_map h)).1 |}]
  ∧ state_ok (collect_one en_map ru_map h dataset st).2.
Proof.
  intros Hst. unfold collect_one, bind.
  match goal with
  | |- context [for_each ?xs0 ?body0 ?acc0 st] =>
      destruct (for_each_ok body0
                  (λ acc '(word, l), add_variants (set_iter (expand l word)) acc)
                  xs0 acc0 st) as [Hval Hst']; [|done|];
      [|destruct (for_each xs0 body0 acc0 st) as [acc' st'] eqn:E]
  end.
  - intros [w l] acc st0 Hst0. unfold bind.
    destruct (cached_variants_ok w l st0 Hst0) as [Hv Hok].
    destruct (cached_variants w l st0) as [v st1]. simpl in *. by subst v.
  - simpl in *. by subst acc'.
Qed.

Lemma collect_run_ok (hanzi_list : list str)
    (en_map ru_map : gmap str (list str)) :
  (collect_run hanzi_list en_map ru_map).1
  = collect_meanings_unmemoized hanzi_list en_map ru_map
  ∧ state_ok (collect_run hanzi_list en_map ru_map).2.
Proof.
  unfold collect_run, collect_meanings_unmemoized.
  apply (for_each_ok (collect_one en_map ru_map)); [|apply initial_state_ok].
  intros h dataset st Hst. by apply collect_one_ok.
Qed.

Lemma collect_meanings_unfold (hanzi_list : list str)
    (en_map ru_map : gmap str (list str)) :
  _collect_meanings hanzi_list en_map ru_map
  = (λ h, {| hanzi := h;
             meanings :=
               keep_first
                 (concat ((λ '(w, l), set_iter (expand l w))
                            <$> roots_of en_map ru_map h)) |})
    <$> hanzi_list.
Proof.
  unfold _collect_meanings.
  rewrite (proj1 (collect_run_ok _ _ _)). apply unmemoized_spec.
Qed.

(** C1. The meaning sequence of every character is the deduplication,
    first occurrence kept, of the concatenated variant sets of its
    selected roots, in root order; a character with no candidate in
    either map has an entry with no meaning. *)
Theorem collect_meanings_spec (hanzi_list : list str)
    (en_map ru_map : gmap str (list str)) :
  _collect_meanings hanzi_list en_map ru_map
  = (λ h, {| hanzi := h;
             meanings :=
               keep_first
                 (concat ((λ '(w, l), set_iter (expand l w))
                            <$> _select_roots (get_or_empty en_map h)
                                  (get_or_empty ru_map h) default_max_roots)) |})
    <$> hanzi_list
  ∧ (∀ e, e ∈ _collect_meanings hanzi_list en_map ru_map →
       get_or_empty en_map (hanzi e) = [] →
       get_or_empty ru_map (hanzi e) = [] →
       meanings e = []).
Proof.
  split; [apply collect_meanings_unfold|].
  intros e He Hen Hru. rewrite collect_meanings_unfold in He.
  apply list_elem_of_fmap in He as (h & -> & _). simpl in *.
  unfold roots_of. by rewrite Hen, Hru.
Qed.


(** ** The expansions *)

Lemma set_iter_elem (s : gset str) (x : str) : x ∈ set_iter s ↔ x ∈ s.
Proof using set_iter_perm. by rewrite set_iter_perm, elem_of_elements. Qed.

Lemma foldl_elem {A} (step : gset str → A → gset str) (P : A → str → Prop)
    (xs : list A) (acc : gset str) (t : str) :
  (∀ acc x t, t ∈ step acc x ↔ t ∈ acc ∨ P x t) →
  t ∈ foldl step acc xs ↔ t ∈ acc ∨ ∃ x, x ∈ xs ∧ P x t.
Proof.
  intros Hstep. revert acc; induction xs as [|x xs IH]; intros acc; simpl.
  - split; [by left|]. intros [?|(x & Hx & _)]; [done|]. by apply elem_of_nil in Hx.
  - rewrite IH, Hstep. split.
    + intros [[?|?]|(y & Hy & HP)]; [by left| |].
      * right. exists x. split; [left|done].
      * right. exists y. split; [by right|done].
    + intros [?|(y & [->|Hy]%elem_of_cons & HP)]; [by left; left|by left; right|].
      right. by exists y.
Qed.

Lemma lemmatize_variants_elem (word x : str) :
  x ∈ en_lemmatize_variants word
  ↔ x = word
    ∨ (nltk_imported = true ∧ wordnet_found = true
       ∧ ∃ pos, wordnet_lemmatize word pos = x ∧ x ≠ []).
Proof.
  forget_oracles.
  unfold en_lemmatize_variants, _wordnet_available.
  destruct nltk_imported, wordnet_found; cbv [negb orb];
    try (rewrite elem_of_singleton; split; [by left|by intros [?|(? & ? & _)]]).
  rewrite (foldl_elem _ (λ pos t, wordnet_lemmatize word pos = t ∧ t ≠ [])).
  - rewrite elem_of_singleton. split.
    + intros [?|(pos & _ & ?)]; [by left|]. right. eauto.
    + intros [?|(_ & _ & pos & ?)]; [by left|]. right. exists pos.
      split; [|done]. destruct pos; set_solver.
  - intros acc pos t. destruct (wordnet_lemmatize word pos) as [|c s]; simpl.
    + split; [by left|]. by intros [?|[<- ?]].
    + rewrite elem_of_union, elem_of_singleton.
      split; [intros [->|?]; [by right|by left]|intros [?|[<- _]]; [by right|by left]].
Qed.

Lemma generate_en_inflections_elem (word f : str) :
  f ∈ generate_en_inflections word
  ↔ ∃ lemma, lemma ∈ en_lemmatize_variants word
      ∧ (f = lemma ∨ ∃ forms, forms ∈ getAllInflections lemma ∧ f ∈ forms).
Proof using set_iter_perm.
  clear MORPH_parse.
  unfold generate_en_inflections.
  rewrite (foldl_elem _
    (λ lemma t, t = lemma ∨ ∃ forms, forms ∈ getAllInflections lemma ∧ t ∈ forms)).
  - setoid_rewrite set_iter_elem. split; [|by right].
    intros [H|?]; [by apply not_elem_of_empty in H|done].
  - intros acc lemma t.
    rewrite (foldl_elem _ (λ forms t, t ∈ forms)).
    + rewrite elem_of_union, elem_of_singleton. tauto.
    + intros acc' forms t'. by rewrite elem_of_union, elem_of_list_to_set.
Qed.

Lemma expand_english_elem (word t : str) :
  t ∈ _expand_english_word word
  ↔ ∃ lemma, lemma ∈ en_lemmatize_variants word
      ∧ ∃ form, form ∈ generate_en_inflections lemma ∧ emits lemma true form t.
Proof using set_iter_perm.
  unfold _expand_english_word.
  rewrite (foldl_elem _
    (λ lemma t, ∃ form, form ∈ generate_en_inflections lemma
                        ∧ emits lemma true form t)).
  - setoid_rewrite set_iter_elem. split; [|by right].
    intros [H|?]; [by apply not_elem_of_empty in H|done].
  - intros acc lemma t'. rewrite elem_of_union, encode_en_suffixes_elem.
    by setoid_rewrite set_iter_elem.
Qed.

Lemma emits_lemma (lemma : str) (d : bool) : emits lemma d lemma lemma.
Proof. by left. Qed.

Lemma expand_english_word_in (word : str) : word ∈ _expand_english_word word.
Proof using set_iter_perm.
  apply expand_english_elem. exists word.
  split; [apply lemmatize_variants_elem; by left|].
  exists word. split; [|apply emits_lemma].
  apply generate_en_inflections_elem. exists word.
  split; [apply lemmatize_variants_elem; by left|by left].
Qed.

Lemma generate_lexeme_forms_in (word : str) :
  (generate_lexeme_forms word).1 ∈ (generate_lexeme_forms word).2.
Proof.
  unfold generate_lexeme_forms. destruct (MORPH_parse word) as [|best ?]; simpl.
  - by apply elem_of_singleton.
  - apply (foldl_elem _ (λ w t, w = t ∧ t ≠ [])).
    + intros acc w t. destruct w as [|c w]; simpl.
      * split; [by left|]. by intros [?|[<- ?]].
      * rewrite elem_of_union, elem_of_singleton.
        split; [intros [->|?]; [by right|by left]|intros [?|[<- _]]; [by right|by left]].
    + left. by apply elem_of_singleton.
Qed.

Lemma expand_russian_word_in (word : str) :
  (generate_lexeme_forms word).1 ∈ _expand_russian_word word.
Proof using set_iter_perm.
  unfold _expand_russian_word.
  pose proof (generate_lexeme_forms_in word) as Hin.
  destruct (generate_lexeme_forms word) as [lemma forms]. simpl in *.
  change (encode_ru_suffixes lemma) with (encode_en_suffixes lemma).
  apply encode_en_suffixes_elem. exists lemma.
  split; [by apply set_iter_elem|apply emits_lemma].
Qed.

Lemma expand_nonempty (l : lang) (word : str) : ∃ t, t ∈ set_iter (expand l word).
Proof using set_iter_perm.
  destruct l; simpl.
  - exists word. apply set_iter_elem, expand_english_word_in.
  - exists (generate_lexeme_forms word).1.
    apply set_iter_elem, expand_russian_word_in.
Qed.

(** C9. The expansion of a word is never empty: the English expansion of
    a word contains the word (the word is one of its own lemmas, the
    inflections of a word contain each of its lemmas, a form equal to its
    lemma is encoded as the lemma), the Russian expansion contains the
    lemma [generate_lexeme_forms] returns; so a character with a selected
    root has a meaning. *)
Theorem expansion_nonempty (hanzi_list : list str)
    (en_map ru_map : gmap str (list str)) :
  (∀ word,
     word ∈ en_lemmatize_variants word
     ∧ (∀ lemma, lemma ∈ en_lemmatize_variants word →
          lemma ∈ generate_en_inflections word)
     ∧ (∀ forms d, word ∈ forms → word ∈ encode_en_suffixes word forms d)
     ∧ word ∈ _expand_english_word word)
  ∧ (∀ word, (generate_lexeme_forms word).1 ∈ _expand_russian_word word)
  ∧ (∀ e, e ∈ _collect_meanings hanzi_list en_map ru_map →
       _select_roots (get_or_empty en_map (hanzi e))
         (get_or_empty ru_map (hanzi e)) default_max_roots ≠ [] →
       meanings e ≠ []).
Proof using set_iter_perm.
  split; [|split].
  - intros word. repeat split.
    + apply lemmatize_variants_elem. by left.
    + intros lemma Hl. apply generate_en_inflections_elem.
      exists lemma. split; [done|by left].
    + intros forms d Hin. apply encode_en_suffixes_elem.
      exists word. split; [done|apply emits_lemma].
    + apply expand_english_word_in.
  - apply expand_russian_word_in.
  - intros e He Hroots. rewrite collect_meanings_unfold in He.
    apply list_elem_of_fmap in He as (h & -> & _). simpl in *.
    unfold roots_of.
    destruct (_select_roots _ _ _) as [|[w l] roots]; [done|]. simpl.
    destruct (expand_nonempty l w) as [t Ht].
    intros Hnil.
    match type of Hnil with
    | ?m = [] => assert (t ∈ m) as Hin
    end.
    { apply keep_first_elem, elem_of_app. by left. }
    rewrite Hnil in Hin. by apply elem_of_nil in Hin.
Qed.

(** ** The dataset and its chunks *)

Lemma value_le_digits (fuel n : nat) :
  (n < fuel)%nat → value_le (digits_rev fuel n) = n.
Proof.
  revert n; induction fuel as [|fuel IH]; intros n Hn; [lia|].
  change (digits_rev (S fuel) n)
    with (if (n <? 10)%nat then [n]
          else (n `mod` 10)%nat :: digits_rev fuel (n `div` 10)%nat).
  destruct (Nat.ltb_spec n 10) as [Hlt|Hge]; [simpl; lia|].
  change (value_le (?d :: ?ds)) with (d + 10 * value_le ds)%nat.
  rewrite IH.
  - pose proof (Nat.div_mod_eq n 10). lia.
  - pose proof (Nat.div_mod_eq n 10).
    pose proof (Nat.mod_upper_bound n 10). lia.
Qed.

Lemma value_le_pad (ds : list nat) (k : nat) :
  value_le (ds ++ replicate k 0%nat) = value_le ds.
Proof.
  induction ds as [|d ds IH]; simpl.
  - induction k as [|k IHk]; simpl; lia.
  - by rewrite IH.
Qed.

Lemma decimal_value_digits (ds : list nat) :
  decimal_value (digit_char <$> rev ds) = value_le ds.
Proof.
  unfold decimal_value.
  induction ds as [|d ds IH]; [done|].
  change (rev (d :: ds)) with (rev ds ++ [d]).
  rewrite fmap_app, foldl_app, IH.
  change (value_le (d :: ds)) with (d + 10 * value_le ds)%nat.
  cbn [fmap list_fmap foldl]. unfold digit_char. lia.
Qed.

Lemma decimal_value_format (n : nat) : decimal_value (format_03d n) = n.
Proof.
  unfold format_03d.
  rewrite decimal_value_digits, value_le_pad. apply value_le_digits. lia.
Qed.

Lemma length_format (n : nat) : (3 ≤ length (format_03d n))%nat.
Proof.
  unfold format_03d.
  rewrite length_fmap, length_rev, length_app, length_replicate. lia.
Qed.

Lemma list_filename_inj (n m : nat) : list_filename n = list_filename m → n = m.
Proof.
  unfold list_filename. intros H%app_inv_head%app_inv_tail.
  by rewrite <- (decimal_value_format n), <- (decimal_value_format m), H.
Qed.

Lemma chunks_concat {A} (l : list A) (c k : nat) :
  concat ((λ i, take c (drop (i * c) l)) <$> seq 0 k) = take (k * c) l.
Proof.
  induction k as [|k IH]; [done|].
  rewrite seq_S, fmap_app, concat_app, IH. simpl. rewrite app_nil_r.
  rewrite take_take_drop. f_equal. lia.
Qed.

Lemma slice_chunk {A} (l : list A) (i c : nat) :
  slice l i (i + c) = take c (drop i l).
Proof. unfold slice. by rewrite take_drop_commute. Qed.

Lemma write_lists_unfold (dataset : list entry) :
  _write_lists dataset
  = (λ i, (list_filename (i + 1), take chunk_size (drop (i * chunk_size) dataset)))
    <$> seq 0 ((length dataset + 99) `div` 100)%nat.
Proof.
  unfold _write_lists, range_step. rewrite <- list_fmap_compose.
  replace (length dataset + chunk_size - 1)%nat with (length dataset + 99)%nat
    by (unfold chunk_size; lia).
  apply list_fmap_ext. intros _ i _. unfold compose. cbv beta zeta.
  by rewrite slice_chunk, Nat.div_mul.
Qed.

Lemma collect_meanings_hanzi (hanzi_list : list str)
    (en_map ru_map : gmap str (list str)) :
  hanzi <$> _collect_meanings hanzi_list en_map ru_map = hanzi_list.
Proof.
  rewrite collect_meanings_unfold, <- list_fmap_compose.
  induction hanzi_list as [|h hl IH]; [done|]. simpl. by f_equal.
Qed.

(** C7. The dataset lists the characters of the frequency list, in its
    order, one entry for each; [_write_lists] writes the chunks
    [dataset[100*i : 100*i + 100]], each of 100 entries except perhaps a
    shorter last one, the chunk [i] (from 0) under the name
    [list_NNN.json] where [NNN] is [i + 1] in decimal, padded with zeros
    to three digits; the names are distinct and the chunks, put one after
    the other, are the dataset. *)
Theorem write_lists_spec (hanzi_list : list str)
    (en_map ru_map : gmap str (list str)) (dataset : list entry) :
  hanzi <$> _collect_meanings hanzi_list en_map ru_map = hanzi_list
  ∧ (∀ i name chunk,
       _write_lists dataset !! i = Some (name, chunk) →
       name = py "list_" ++ format_03d (i + 1) ++ py ".json"
       ∧ decimal_value (format_03d (i + 1)) = (i + 1)%nat
       ∧ (3 ≤ length (format_03d (i + 1)))%nat
       ∧ chunk = take 100 (drop (100 * i) dataset)
       ∧ (length chunk = 100%nat
          ∨ (S i = length (_write_lists dataset)
             ∧ (0 < length chunk < 100)%nat)))
  ∧ NoDup (_write_lists dataset).*1
  ∧ concat (_write_lists dataset).*2 = dataset.
Proof.
  split; [apply collect_meanings_hanzi|].
  rewrite write_lists_unfold. split; [|split].
  - intros i name chunk. rewrite list_lookup_fmap, length_fmap, length_seq.
    intros H. apply fmap_Some in H as (k & Hk & [= -> ->]).
    apply lookup_seq in Hk as [-> Hlt]. change (0 + i)%nat with i in *.
    split; [done|]. split; [apply decimal_value_format|].
    split; [apply length_format|].
    unfold chunk_size. rewrite (Nat.mul_comm 100 i). split; [done|].
    rewrite length_take, length_drop.
    pose proof (Nat.div_mod_eq (length dataset + 99) 100).
    pose proof (Nat.mod_upper_bound (length dataset + 99) 100). lia.
  - rewrite <- list_fmap_compose. apply NoDup_fmap_2_strong; [|apply NoDup_seq].
    intros i j _ _ H. unfold compose in H. cbv beta in H.
    injection H as H. apply (app_inv_tail (py ".json")) in H.
    apply (f_equal decimal_value) in H. rewrite !decimal_value_format in H. lia.
  - rewrite <- list_fmap_compose.
    rewrite (chunks_concat dataset chunk_size). apply take_ge.
    unfold chunk_size.
    pose proof (Nat.div_mod_eq (length dataset + 99) 100).
    pose proof (Nat.mod_upper_bound (length dataset + 99) 100). lia.
Qed.

(** ** Candidate extraction *)

Lemma dedupe_preserve_elem (l : list str) (x : str) :
  x ∈ _dedupe_preserve l ↔ x ∈ l.
Proof. rewrite dedupe_preserve_keep_first. apply keep_first_elem. Qed.





(** *** Delimited segments *)

Section Delimited.
Variables open close : N.






Lemma sub_no_open (pre rest : str) :
  open ∉ pre →
  sub_delimited open close (pre ++ rest) false
  = pre ++ sub_delimited open close rest false.
Proof.
  induction pre as [|c pre IH]; intros Hp; simpl; [done|].
  apply not_elem_of_cons in Hp as [Hc Hp].
  destruct (N.eqb_spec c open) as [->|_]; [done|]. simpl. by rewrite IH.
Qed.

Lemma sub_cons_other (c : N) (s : str) :
  c ≠ open →
  sub_delimited open close (c :: s) false
  = c :: sub_delimited open close s false.
Proof. intros Hc. simpl. by destruct (N.eqb_spec c open). Qed.


End Delimited.


Lemma str_lower_app (a b : str) : str_lower (a ++ b) = str_lower a ++ str_lower b.
Proof. unfold str_lower. apply flat_map_app. Qed.

Lemma str_lower_cons (c : N) (s : str) :
  str_lower (c :: s) = lower_char c ++ str_lower s.
Proof. done. Qed.








(** ** Further properties of the expansions and of the run *)

(** X13. Every token of an expansion is a lemma or [lemma#suffix] with a
    suffix that is not empty, and [lemma + suffix] is then one of the
    forms of that lemma; every form that starts with its lemma gives such
    a token. No form that does not start with its lemma is among the
    tokens. *)
Theorem expansion_tokens (word t : str) :
  (t ∈ _expand_english_word word
   ↔ ∃ lemma suffix,
       lemma ∈ en_lemmatize_variants word
       ∧ lemma ++ suffix ∈ generate_en_inflections lemma
       ∧ t = if truthy suffix then lemma ++ HASH :: suffix else lemma)
  ∧ (t ∈ _expand_russian_word word
     ↔ ∃ suffix,
         (generate_lexeme_forms word).1 ++ suffix
           ∈ (generate_lexeme_forms word).2
         ∧ t = if truthy suffix
               then (generate_lexeme_forms word).1 ++ HASH :: suffix
               else (generate_lexeme_forms word).1).
Proof using set_iter_perm.
  assert (∀ lemma (forms : gset str),
            (∃ form, form ∈ forms ∧ emits lemma true form t)
            ↔ ∃ suffix, lemma ++ suffix ∈ forms
                ∧ t = if truthy suffix then lemma ++ HASH :: suffix else lemma)
    as Hemit.
  { intros lemma forms. split.
    - intros (form & Hf & [[-> ->]|[(suffix & -> & ->)|(_ & ? & _)]]); [| |done].
      + exists []. by rewrite app_nil_r.
      + by exists suffix.
    - intros (suffix & Hf & ->). exists (lemma ++ suffix). split; [done|].
      right; left. by exists suffix. }
  split.
  - rewrite expand_english_elem. split.
    + intros (lemma & Hl & Hf). apply Hemit in Hf as (suffix & ? & ?).
      by exists lemma, suffix.
    + intros (lemma & suffix & Hl & Hf & Ht). exists lemma. split; [done|].
      apply Hemit. by exists suffix.
  - unfold _expand_russian_word.
    destruct (generate_lexeme_forms word) as [lemma forms]. cbn [fst snd].
    change (encode_ru_suffixes lemma) with (encode_en_suffixes lemma).
    rewrite encode_en_suffixes_elem. setoid_rewrite set_iter_elem.
    apply Hemit.
Qed.

Lemma lexeme_forms_elem (word f : str) :
  f ∈ (generate_lexeme_forms word).2
  ↔ f = (generate_lexeme_forms word).1
    ∨ ∃ best rest, MORPH_parse word = best :: rest ∧ f ∈ lexeme best ∧ f ≠ [].
Proof.
  unfold generate_lexeme_forms.
  destruct (MORPH_parse word) as [|best rest]; cbn [fst snd].
  - rewrite elem_of_singleton. split; [by left|]. by intros [?|(? & ? & ? & _)].
  - rewrite (foldl_elem _ (λ w t, w = t ∧ t ≠ [])).
    + rewrite elem_of_singleton. split.
      * intros [?|(w & Hw & <- & ?)]; [by left|]. right. by exists best, rest.
      * intros [?|(b & r & [= <- <-] & ? & ?)]; [by left|]. right. by exists f.
    + intros acc w t'. destruct w as [|c w]; cbn [truthy].
      * split; [by left|]. by intros [?|[<- ?]].
      * rewrite elem_of_union, elem_of_singleton.
        split; [intros [->|?]; [by right|by left]
               |intros [?|[<- _]]; [by right|by left]].
Qed.

(** X14. [get_lemma] and [generate_lexeme_forms] agree on the lemma of a word,
    which is the word itself when the analyzer has no parse or gives an
    empty normal form, and is one of the forms; the forms of a word that
    is not empty hold no empty string, and a word without a parse has
    itself as its only form. *)
Theorem get_lemma_spec (word : str) :
  get_lemma word = (generate_lexeme_forms word).1
  ∧ get_lemma word ∈ (generate_lexeme_forms word).2
  ∧ (word ≠ [] → get_lemma word ≠ [])
  ∧ (word ≠ [] → [] ∉ (generate_lexeme_forms word).2)
  ∧ (MORPH_parse word = [] →
       get_lemma word = word ∧ (generate_lexeme_forms word).2 = {[ word ]})
  ∧ (∀ best rest, MORPH_parse word = best :: rest → normal_form best = [] →
       get_lemma word = word).
Proof.
  assert (get_lemma word = (generate_lexeme_forms word).1) as Heq.
  { unfold get_lemma, generate_lexeme_forms. by destruct (MORPH_parse word). }
  assert (word ≠ [] → get_lemma word ≠ []) as Hne.
  { unfold get_lemma. destruct (MORPH_parse word) as [|best rest]; [done|].
    by destruct (normal_form best). }
  split; [done|]. split; [|split; [done|split; [|split]]].
  - rewrite Heq. apply lexeme_forms_elem. by left.
  - intros Hw [Hin|(b & r & _ & _ & ?)]%lexeme_forms_elem; [|done].
    rewrite <- Heq in Hin. by apply Hne.
  - intros Hp. unfold get_lemma, generate_lexeme_forms. by rewrite Hp.
  - intros best rest Hp Hn. unfold get_lemma. by rewrite Hp, Hn.
Qed.



(** *** The requests to the memo tables *)

Lemma requested_keys_app (tr1 tr2 : list event) :
  requested_keys (tr1 ++ tr2) = requested_keys tr1 ++ requested_keys tr2.
Proof. apply omap_app. Qed.

Lemma cached_variants_requests (word : str) (l : lang) (st : run_state) :
  state_ok st →
  requested_keys (trace (cached_variants word l st).2)
  = requested_keys (trace st) ++ [(l, word)]
  ∧ (∀ k, k ∈ expanded_keys (trace (cached_variants word l st).2)
          ↔ k ∈ expanded_keys (trace st) ∨ k = (l, word)).
Proof.
  intros [_ Hk _ _]. unfold cached_variants. destruct l.
  - destruct (decide (word ∈ dom (en_cache st))) as [Hin|Hnin]; cbn [snd trace].
    + rewrite requested_keys_app, expanded_keys_app. cbn. rewrite app_nil_r.
      split; [done|]. intros k. split; [by left|].
      intros [?|Heq]; [done|]. subst k. by apply (Hk EN).
    + rewrite !requested_keys_app, !expanded_keys_app. cbn.
      rewrite !app_nil_r. split; [done|]. intros k.
      by rewrite elem_of_app, list_elem_of_singleton.
  - destruct (decide (word ∈ dom (ru_cache st))) as [Hin|Hnin]; cbn [snd trace].
    + rewrite requested_keys_app, expanded_keys_app. cbn. rewrite app_nil_r.
      split; [done|]. intros k. split; [by left|].
      intros [?|Heq]; [done|]. subst k. by apply (Hk RU).
    + rewrite !requested_keys_app, !expanded_keys_app. cbn.
      rewrite !app_nil_r. split; [done|]. intros k.
      by rewrite elem_of_app, list_elem_of_singleton.
Qed.

(** A loop whose body makes the requests [keys x]. *)
Lemma for_each_requests {A S} (body : A → S → M S)
    (keys : A → list (lang * str)) (xs : list A) (acc : S) (st : run_state) :
  (∀ x acc st, state_ok st →
     state_ok (body x acc st).2
     ∧ requested_keys (trace (body x acc st).2)
       = requested_keys (trace st) ++ keys x
     ∧ (∀ k, k ∈ expanded_keys (trace (body x acc st).2)
             ↔ k ∈ expanded_keys (trace st) ∨ k ∈ keys x)) →
  state_ok st →
  state_ok (for_each xs body acc st).2
  ∧ requested_keys (trace (for_each xs body acc st).2)
    = requested_keys (trace st) ++ concat (keys <$> xs)
  ∧ (∀ k, k ∈ expanded_keys (trace (for_each xs body acc st).2)
          ↔ k ∈ expanded_keys (trace st) ∨ k ∈ concat (keys <$> xs)).
Proof.
  intros Hbody. revert acc st; induction xs as [|x xs IH]; intros acc st Hst.
  - cbn. rewrite app_nil_r. split; [done|]. split; [done|].
    intros k. split; [by left|]. by intros [?|?%elem_of_nil].
  - cbn [for_each]. unfold bind.
    destruct (Hbody x acc st Hst) as (Hst' & Hreq & Hexp).
    destruct (body x acc st) as [acc' st']. cbn [snd] in *.
    destruct (IH acc' st' Hst') as (Hok & Hreq' & Hexp').
    split; [done|]. split.
    + rewrite Hreq', Hreq. cbn. by rewrite <- app_assoc.
    + intros k. rewrite Hexp', Hexp. cbn. rewrite elem_of_app. tauto.
Qed.

Lemma collect_one_requests (en_map ru_map : gmap str (list str)) (h : str)
    (dataset : list entry) (st : run_state) :
  state_ok st →
  let st' := (collect_one en_map ru_map h dataset st).2 in
  let keys := (λ '(w, l), (l, w)) <$> roots_of en_map ru_map h in
  state_ok st'
  ∧ requested_keys (trace st') = requested_keys (trace st) ++ keys
  ∧ (∀ k, k ∈ expanded_keys (trace st')
          ↔ k ∈ expanded_keys (trace st) ∨ k ∈ keys).
Proof.
  intros Hst. cbv zeta. unfold collect_one, bind.
  match goal with
  | |- context [for_each ?xs0 ?body0 ?acc0 st] =>
      destruct (for_each_requests body0 (λ '(w, l), [(l, w)]) xs0 acc0 st)
        as (Hok & Hreq & Hexp); [|done|];
      [|destruct (for_each xs0 body0 acc0 st) as [acc' st'] eqn:E]
  end.
  - intros [w l] acc st0 Hst0. unfold bind.
    destruct (cached_variants_ok w l st0 Hst0) as [_ Hok].
    destruct (cached_variants_requests w l st0 Hst0) as [Hreq Hexp].
    destruct (cached_variants w l st0) as [v st1]. cbn [snd ret] in *.
    split; [done|]. split; [done|].
    intros k. rewrite Hexp. by rewrite list_elem_of_singleton.
  - cbn [snd ret] in *.
    assert (concat ((λ '(w, l), [(l, w)]) <$> roots_of en_map ru_map h)
            = (λ '(w, l), (l, w)) <$> roots_of en_map ru_map h) as Hc.
    { induction (roots_of en_map ru_map h) as [|[w l] rs IHr]; [done|].
      cbn. by rewrite IHr. }
    unfold roots_of in *. rewrite Hc in Hreq, Hexp. done.
Qed.

(** X16. The expansion is computed for exactly the roots the run asks for:
    the requests are the selected roots of the characters, in order, and
    a key is in the memo table of its language if and only if it was
    requested. With the bound of one computation for a key, every
    requested root is expanded exactly once and no other word is. *)
Theorem expansion_requests (hanzi_list : list str)
    (en_map ru_map : gmap str (list str)) :
  let st := (collect_run hanzi_list en_map ru_map).2 in
  requested_keys (trace st)
  = concat ((λ h, (λ '(w, l), (l, w))
                    <$> _select_roots (get_or_empty en_map h)
                          (get_or_empty ru_map h) default_max_roots)
            <$> hanzi_list)
  ∧ (∀ k, k ∈ expanded_keys (trace st) ↔ k ∈ requested_keys (trace st))
  ∧ (∀ w, w ∈ dom (en_cache st) ↔ (EN, w) ∈ requested_keys (trace st))
  ∧ (∀ w, w ∈ dom (ru_cache st) ↔ (RU, w) ∈ requested_keys (trace st)).
Proof.
  cbv zeta. unfold collect_run.
  destruct (for_each_requests (collect_one en_map ru_map)
              (λ h, (λ '(w, l), (l, w)) <$> roots_of en_map ru_map h)
              hanzi_list [] initial_state) as (Hok & Hreq & Hexp).
  { intros h dataset st Hst. by apply collect_one_requests. }
  { apply initial_state_ok. }
  cbn [initial_state trace requested_keys omap list_omap app] in Hreq.
  assert (∀ k, k ∈ expanded_keys
                   (trace (for_each hanzi_list (collect_one en_map ru_map) []
                             initial_state).2)
               ↔ k ∈ requested_keys
                       (trace (for_each hanzi_list (collect_one en_map ru_map)
                                 [] initial_state).2)) as Hiff.
  { intros k. rewrite Hexp, Hreq. split; [|by right].
    intros [H|H]; [|done]. by apply elem_of_nil in H. }
  split; [done|]. split; [done|].
  destruct Hok as [_ Hk _ _].
  split; intros w; rewrite <- Hiff.
  - symmetry. apply (Hk EN).
  - symmetry. apply (Hk RU).
Qed.

(** X17. The entries do not depend on what was processed before: a list of
    characters processed in two parts gives the entries of the whole, so
    the memo tables carry nothing from one character to the next but
    saved work, and a character listed twice gets the same meanings both
    times. *)
Theorem collect_meanings_app (l1 l2 : list str)
    (en_map ru_map : gmap str (list str)) :
  _collect_meanings (l1 ++ l2) en_map ru_map
  = _collect_meanings l1 en_map ru_map ++ _collect_meanings l2 en_map ru_map
  ∧ (∀ e1 e2, e1 ∈ _collect_meanings (l1 ++ l2) en_map ru_map →
              e2 ∈ _collect_meanings (l1 ++ l2) en_map ru_map →
              hanzi e1 = hanzi e2 → e1 = e2).
Proof.
  rewrite !collect_meanings_unfold. split; [apply fmap_app|].
  intros e1 e2 (h1 & -> & _)%list_elem_of_fmap (h2 & -> & _)%list_elem_of_fmap.
  cbn [hanzi]. by intros ->.
Qed.

End Pipeline.

(** ** The English lemma set, with and without WordNet *)

Section DegradedMode.

Variable set_iter : gset str → list str.
Hypothesis set_iter_perm : ∀ s, set_iter s ≡ₚ elements s.
Variable wordnet_lemmatize : str → wordnet_pos → str.
Variable getAllInflections : str → list (list str).

Lemma lemmatize_variants_degraded (nltk_imported wordnet_found : bool)
    (word : str) :
  nltk_imported && wordnet_found = false →
  en_lemmatize_variants nltk_imported wordnet_found wordnet_lemmatize word
  = {[ word ]}.
Proof.
  intros Hflags. apply set_eq. intros x.
  rewrite lemmatize_variants_elem, elem_of_singleton.
  split; [|by left]. intros [?|(-> & -> & _)]; done.
Qed.

Lemma expand_english_degraded_subseteq (nltk_imported wordnet_found : bool)
    (word : str) :
  nltk_imported && wordnet_found = false →
  _expand_english_word set_iter nltk_imported wordnet_found
    wordnet_lemmatize getAllInflections word
  ⊆ _expand_english_word set_iter true true
      wordnet_lemmatize getAllInflections word.
Proof using set_iter_perm.
  intros Hflags t.
  rewrite !expand_english_elem by done.
  intros (lemma & Hl & form & Hf & He).
  rewrite lemmatize_variants_degraded in Hl by done.
  apply elem_of_singleton in Hl as ->.
  exists word. split; [apply lemmatize_variants_elem; by left|].
  exists form. split; [|done].
  apply generate_en_inflections_elem in Hf as (l' & Hl' & Hform); [|done].
  rewrite lemmatize_variants_degraded in Hl' by done.
  apply elem_of_singleton in Hl' as ->.
  apply generate_en_inflections_elem; [done|].
  exists word. split; [apply lemmatize_variants_elem; by left|done].
Qed.

(** C8. With WordNet at hand the lemma set of a word is the word itself
    together with its lemmas as a noun, a verb, an adjective and an adverb
    (an empty answer of the lemmatizer is no lemma). Without the
    lemmatizer or without the WordNet corpus the lemma set is exactly
    [{word}], and the expansion is then a subset of the full one that
    still contains the word. *)
Theorem lemmatize_variants_spec (word : str) :
  (∀ x, x ∈ en_lemmatize_variants true true wordnet_lemmatize word
        ↔ x = word
          ∨ ∃ pos, pos ∈ [Noun; Verb; Adj; Adv]
                   ∧ wordnet_lemmatize word pos = x ∧ x ≠ [])
  ∧ (∀ nltk_imported wordnet_found,
       nltk_imported && wordnet_found = false →
       _wordnet_available nltk_imported wordnet_found = false
       ∧ en_lemmatize_variants nltk_imported wordnet_found
           wordnet_lemmatize word = {[ word ]}
       ∧ word ∈ _expand_english_word set_iter nltk_imported wordnet_found
                  wordnet_lemmatize getAllInflections word
       ∧ _expand_english_word set_iter nltk_imported wordnet_found
           wordnet_lemmatize getAllInflections word
         ⊆ _expand_english_word set_iter true true
             wordnet_lemmatize getAllInflections word).
Proof using set_iter_perm.
  split.
  - intros x. rewrite lemmatize_variants_elem. split.
    + intros [?|(_ & _ & pos & ?)]; [by left|]. right. exists pos.
      split; [|done]. destruct pos; set_solver.
    + intros [?|(pos & _ & ?)]; [by left|]. right. eauto.
  - intros nltk_imported wordnet_found Hflags. repeat split.
    + unfold _wordnet_available. by destruct nltk_imported, wordnet_found.
    + by apply lemmatize_variants_degraded.
    + by apply expand_english_word_in.
    + by apply expand_english_degraded_subseteq.
Qed.

End DegradedMode.

(** * Further properties *)

(** ** Deduplication *)

Lemma filter_all_in {A} (P : A → Prop) `{!∀ x, Decision (P x)} (l : list A) :
  (∀ x, x ∈ l → P x) → filter P l = l.
Proof.
  induction l as [|x l IH]; intros HP; [done|].
  rewrite filter_cons_True by (apply HP; left).
  rewrite IH; [done|]. intros y Hy. apply HP. by right.
Qed.

Lemma keep_first_app (a b : list str) :
  keep_first (a ++ b) = keep_first a ++ filter (λ y, y ∉ a) (keep_first b).
Proof.
  induction a as [|x a IH]; simpl.
  - symmetry. apply filter_all. intros y. apply not_elem_of_nil.
  - rewrite IH, filter_app, list_filter_filter. do 2 f_equal.
    apply list_filter_iff. intros y. rewrite not_elem_of_cons. tauto.
Qed.

Lemma keep_first_NoDup_id (l : list str) : NoDup l → keep_first l = l.
Proof.
  induction 1 as [|x l Hx Hl IH]; [done|]. simpl. rewrite IH. f_equal.
  apply filter_all_in. intros y Hy ->. done.
Qed.

Lemma keep_first_idemp (l : list str) : keep_first (keep_first l) = keep_first l.
Proof. apply keep_first_NoDup_id, keep_first_NoDup. Qed.

Lemma keep_first_absorb (a b : list str) :
  keep_first (keep_first a ++ b) = keep_first (a ++ b).
Proof.
  rewrite !keep_first_app, keep_first_idemp. f_equal.
  apply list_filter_iff. intros y. by rewrite keep_first_elem.
Qed.

(** X1. [_dedupe_preserve] returns its words without repetition and loses
    none; it leaves a list without repetition as it is, so it is
    idempotent; and on [l1 + l2] it returns what it returns on [l1],
    followed by the new words of [l2]. *)
Theorem dedupe_preserve_props (l1 l2 : list str) :
  NoDup (_dedupe_preserve l1)
  ∧ (∀ x, x ∈ _dedupe_preserve l1 ↔ x ∈ l1)
  ∧ (NoDup l1 → _dedupe_preserve l1 = l1)
  ∧ _dedupe_preserve (_dedupe_preserve l1) = _dedupe_preserve l1
  ∧ _dedupe_preserve (l1 ++ l2)
    = _dedupe_preserve l1 ++ filter (λ y, y ∉ l1) (_dedupe_preserve l2).
Proof.
  rewrite !dedupe_preserve_keep_first. repeat split.
  - apply keep_first_NoDup.
  - apply keep_first_elem.
  - apply keep_first_elem.
  - apply keep_first_NoDup_id.
  - apply keep_first_idemp.
  - apply keep_first_app.
Qed.

(** ** The root selector: priority and bounds *)

(** X2. The English candidates come first: a Russian candidate is selected
    only when fewer than [max_roots] distinct English ones exist. A
    negative [max_roots] drops that many roots from the end instead. No
    root is selected that is not a candidate. *)
Theorem select_roots_priority (en_roots ru_roots : list str) (max_roots : Z) :
  let combined :=
    keep_first en_roots ++ filter (λ y, y ∉ en_roots) (keep_first ru_roots) in
  ((0 ≤ max_roots)%Z →
     (_select_roots en_roots ru_roots max_roots).*1
     = take (Z.to_nat max_roots) combined)
  ∧ ((0 ≤ max_roots)%Z →
     (Z.to_nat max_roots ≤ length (keep_first en_roots))%nat →
     (_select_roots en_roots ru_roots max_roots).*1
     = take (Z.to_nat max_roots) (keep_first en_roots))
  ∧ ((max_roots < 0)%Z →
     (_select_roots en_roots ru_roots max_roots).*1
     = take (length combined - Z.to_nat (- max_roots)) combined)
  ∧ (∀ w, w ∈ (_select_roots en_roots ru_roots max_roots).*1 →
       w ∈ en_roots ∨ w ∈ ru_roots).
Proof.
  intros combined. rewrite select_roots_words, keep_first_app. fold combined.
  unfold slice_to. repeat split.
  - intros Hm. by destruct (Z.ltb_spec max_roots 0); [lia|].
  - intros Hm Hlen. destruct (Z.ltb_spec max_roots 0); [lia|].
    unfold combined. by rewrite take_app_le.
  - intros Hm. destruct (Z.ltb_spec max_roots 0); [|lia]. f_equal. lia.
  - intros w Hw.
    assert (w ∈ combined) as Hc.
    { destruct (max_roots <? 0)%Z; by apply (subseteq_take _ _ w) in Hw. }
    unfold combined in Hc.
    apply elem_of_app in Hc as [Hc|Hc].
    + left. by apply keep_first_elem.
    + right. apply list_elem_of_filter in Hc as [_ Hc]. by apply keep_first_elem.
Qed.

(** ** The suffix codec: composition and injectivity *)

Lemma emits_inj (lemma : str) (d : bool) (f1 f2 t : str) :
  emits lemma d f1 t → emits lemma d f2 t → f1 = f2.
Proof.
  assert (∀ s, startswith (lemma ++ s) lemma = true) as Hpre.
  { intros s. apply startswith_app. by exists s. }
  assert (∀ s, lemma ++ HASH :: s ≠ lemma) as Hlen.
  { intros s H. apply (f_equal length) in H. rewrite length_app in H.
    simpl in H. lia. }
  assert (∀ s, lemma ++ s = lemma → s = []) as Hnil.
  { intros s H. apply (app_inv_head lemma). by rewrite app_nil_r. }
  assert (∀ f s, emits lemma d f (lemma ++ s) → f = lemma ++ drop 1 s) as Hstart.
  { intros f s [[-> H]|[(s' & -> & H)|(Hsw & _ & H)]].
    - apply Hnil in H as ->. by rewrite app_nil_r.
    - destruct s' as [|c s']; simpl in H.
      + by apply Hnil in H as ->.
      + by apply app_inv_head in H as ->.
    - subst f. by rewrite Hpre in Hsw. }
  assert (startswith lemma lemma = true) as Hself.
  { apply startswith_app. exists []. by rewrite app_nil_r. }
  intros H1 H2.
  destruct (startswith t lemma) eqn:Ht.
  - apply startswith_app in Ht as [s ->].
    by rewrite (Hstart _ _ H1), (Hstart _ _ H2).
  - destruct H1 as [[-> ->]|[(s1 & -> & ->)|(_ & _ & ->)]].
    + by rewrite Hself in Ht.
    + destruct (truthy s1).
      * by rewrite Hpre in Ht.
      * by rewrite Hself in Ht.
    + destruct H2 as [[-> ->]|[(s2 & -> & ->)|(_ & _ & ->)]]; [| |done].
      * by rewrite Hself in Ht.
      * destruct (truthy s2).
        -- by rewrite Hpre in Ht.
        -- by rewrite Hself in Ht.
Qed.

(** X3. The codec works form by form: the tokens of [forms1 + forms2] are
    those of [forms1] and those of [forms2], no form gives none; dropping
    the forms that do not start with the lemma only removes tokens, and
    every token that is left starts with the lemma; the bare lemma is a
    token exactly when the lemma is one of the forms; and two different
    forms never share a token. *)
Theorem encode_suffix_variants_compose (lemma : str)
    (forms1 forms2 : list str) (drop_non_prefix : bool) :
  encode_en_suffixes lemma (forms1 ++ forms2) drop_non_prefix
  = encode_en_suffixes lemma forms1 drop_non_prefix
    ∪ encode_en_suffixes lemma forms2 drop_non_prefix
  ∧ encode_en_suffixes lemma [] drop_non_prefix = ∅
  ∧ encode_en_suffixes lemma forms1 true ⊆ encode_en_suffixes lemma forms1 false
  ∧ (∀ t, t ∈ encode_en_suffixes lemma forms1 true → startswith t lemma = true)
  ∧ (lemma ∈ encode_en_suffixes lemma forms1 drop_non_prefix ↔ lemma ∈ forms1)
  ∧ (∀ f1 f2 t,
       t ∈ encode_en_suffixes lemma [f1] drop_non_prefix →
       t ∈ encode_en_suffixes lemma [f2] drop_non_prefix →
       f1 = f2).
Proof.
  split; [|split; [|split; [|split; [|split]]]].
  - apply set_eq. intros t.
    rewrite elem_of_union, !encode_en_suffixes_elem. split.
    + intros (f & [Hf|Hf]%elem_of_app & He); [left|right]; by exists f.
    + intros [(f & Hf & He)|(f & Hf & He)]; exists f;
        (split; [apply elem_of_app|done]); [by left|by right].
  - done.
  - intros t. rewrite !encode_en_suffixes_elem.
    intros (f & Hf & [?|[?|(_ & ? & _)]]); [| |done]; exists f;
      (split; [done|]); [by left|by right; left].
  - intros t. rewrite encode_en_suffixes_elem.
    intros (f & _ & [[_ ->]|[(s & _ & ->)|(_ & ? & _)]]); [| |done].
    + apply startswith_app. exists []. by rewrite app_nil_r.
    + apply startswith_app. destruct (truthy s).
      * by exists (HASH :: s).
      * exists []. by rewrite app_nil_r.
  - rewrite encode_en_suffixes_elem. split.
    + intros (f & Hf & He).
      by rewrite (emits_inj lemma drop_non_prefix lemma f lemma
                    (emits_lemma lemma _) He).
    + intros Hin. exists lemma. split; [done|apply emits_lemma].
  - intros f1 f2 t. rewrite !encode_en_suffixes_elem.
    intros (f1' & ->%list_elem_of_singleton & H1)
           (f2' & ->%list_elem_of_singleton & H2).
    by apply (emits_inj lemma drop_non_prefix _ _ t).
Qed.

(** ** The delimited segments of a definition *)

Lemma sub_close_from_input (open close : N) (s : str) (inside : bool) :
  close ≠ SPACE →
  existsb (N.eqb close) (sub_delimited open close s inside) = true →
  existsb (N.eqb close) s = true.
Proof.
  intros Hc. revert inside; induction s as [|c s IH]; intros inside; [done|].
  simpl. destruct inside.
  - destruct (N.eqb_spec c close) as [->|Hne].
    + by rewrite N.eqb_refl.
    + intros H%IH. rewrite H. apply orb_true_r.
  - destruct ((c =? open) && existsb (N.eqb close) s) eqn:E.
    + intros H%IH. rewrite H. apply orb_true_r.
    + simpl. intros [H|H%IH]%orb_true_iff; rewrite H; [done|apply orb_true_r].
Qed.

Lemma sub_length (open close : N) (s : str) (inside : bool) :
  (length (sub_delimited open close s inside) ≤ length s)%nat.
Proof.
  revert inside; induction s as [|c s IH]; intros inside; [done|].
  pose proof (IH true). pose proof (IH false). simpl.
  repeat case_match; simpl; lia.
Qed.

Lemma sub_idemp (open close : N) (s : str) (inside : bool) :
  open ≠ SPACE → close ≠ SPACE →
  sub_delimited open close (sub_delimited open close s inside) false
  = sub_delimited open close s inside.
Proof.
  intros Ho Hc. revert inside; induction s as [|c s IH]; intros inside; [done|].
  simpl. destruct inside.
  - destruct (N.eqb_spec c close) as [->|Hne]; [|apply IH].
    rewrite sub_cons_other by done. by rewrite IH.
  - destruct ((c =? open) && existsb (N.eqb close) s) eqn:E; [apply IH|].
    simpl.
    destruct ((c =? open)
              && existsb (N.eqb close) (sub_delimited open close s false)) eqn:E2.
    + apply andb_true_iff in E2 as [E2 E3].
      apply sub_close_from_input in E3; [|done]. by rewrite E2, E3 in E.
    + by rewrite IH.
Qed.

Lemma sub_untouched (open close : N) (s : str) :
  open ∉ s → sub_delimited open close s false = s.
Proof.
  intros H. rewrite <- (app_nil_r s) at 1. rewrite sub_no_open by done.
  by rewrite app_nil_r.
Qed.

(** X4. Replacing the parenthesized, then the bracketed, segments never
    lengthens the text, leaves a text without the opening character as it
    is, and leaves nothing to replace: doing it again changes nothing. *)
Theorem delimited_sub_props (s : str) :
  (length (PAREN_sub s) ≤ length s)%nat
  ∧ (length (BRACK_sub s) ≤ length s)%nat
  ∧ PAREN_sub (PAREN_sub s) = PAREN_sub s
  ∧ BRACK_sub (BRACK_sub s) = BRACK_sub s
  ∧ (0x28 ∉ s → PAREN_sub s = s)
  ∧ (0x5B ∉ s → BRACK_sub s = s).
Proof.
  unfold PAREN_sub, BRACK_sub. repeat split.
  - apply sub_length.
  - apply sub_length.
  - by apply sub_idemp.
  - by apply sub_idemp.
  - apply sub_untouched.
  - apply sub_untouched.
Qed.

(** ** The English candidates *)

Lemma finditer_runs (class : N → bool) (s cur w : str) :
  (∀ c, c ∈ cur → class c = true) →
  w ∈ finditer class s cur →
  w ≠ [] ∧ ∀ c, c ∈ w → class c = true.
Proof.
  revert cur; induction s as [|c s IH]; intros cur Hcur; simpl.
  - destruct cur as [|x cur]; simpl; [by intros ?%elem_of_nil|].
    by intros ->%list_elem_of_singleton.
  - destruct (class c) eqn:Hc.
    + apply IH. intros x [Hx|Hx]%elem_of_app; [by apply Hcur|].
      by apply list_elem_of_singleton in Hx as ->.
    + intros [Hw|Hw]%elem_of_app.
      * destruct cur as [|x cur]; simpl in Hw; [by apply elem_of_nil in Hw|].
        by apply list_elem_of_singleton in Hw as ->.
      * apply (IH []); [|done]. by intros x ?%elem_of_nil.
Qed.

Ltac bool_to_arith :=
  repeat match goal with
  | H : _ && _ = true |- _ => apply andb_true_iff in H as [? ?]
  | H : _ && _ = false |- _ => apply andb_false_iff in H
  | H : (_ <=? _) = true |- _ => apply N.leb_le in H
  | H : (_ =? _) = true |- _ => apply N.eqb_eq in H
  | H : (_ =? _) = false |- _ => apply N.eqb_neq in H
  end;
  rewrite ?N.leb_gt in *.

Lemma lower_char_fixed (x : N) :
  ¬ (0x41 ≤ x ∧ x ≤ 0x5A) → ¬ (0x400 ≤ x ∧ x ≤ 0x42F) →
  x ≠ 0x130 → x ≠ 0x212A →
  lower_char x = [x].
Proof.
  intros H1 H2 H3 H4. unfold lower_char.
  repeat case_match; try done; bool_to_arith; exfalso; lia.
Qed.

Lemma lower_char_stable (c x : N) : x ∈ lower_char c → lower_char x = [x].
Proof.
  intros Hx. apply lower_char_fixed; revert Hx; unfold lower_char;
    repeat case_match; bool_to_arith;
    rewrite ?elem_of_cons, ?list_elem_of_singleton, ?elem_of_nil;
    intros Hx; lia.
Qed.

Lemma str_lower_idemp (s : str) : str_lower (str_lower s) = str_lower s.
Proof.
  induction s as [|c s IH]; [done|].
  rewrite str_lower_cons, str_lower_app, IH. f_equal.
  pose proof (lower_char_stable c) as Hst.
  induction (lower_char c) as [|x l IHl]; [done|].
  rewrite str_lower_cons, (Hst x) by left. simpl. f_equal.
  apply IHl. intros y Hy. apply Hst. by right.
Qed.

(** X5. The English candidates of a definition are distinct words made of the
    letters a to z, none of them a stopword; the case of the text does
    not matter, and an empty definition gives none. *)
Theorem english_words_invariant (text : str) :
  NoDup (_extract_english_words text)
  ∧ (∀ w, w ∈ _extract_english_words text →
       (∀ c, c ∈ w → 0x61 ≤ c ∧ c ≤ 0x7A) ∧ w ∉ STOPWORDS_EN)
  ∧ _extract_english_words (str_lower text) = _extract_english_words text
  ∧ _extract_english_words [] = [].
Proof.
  split; [|split; [|split]].
  - unfold _extract_english_words. rewrite dedupe_preserve_keep_first.
    apply keep_first_NoDup.
  - intros w. unfold _extract_english_words. rewrite dedupe_preserve_elem.
    intros [[Hstop _] Hrun]%list_elem_of_filter. split; [|done].
    apply finditer_runs in Hrun as [_ Haz]; [|by intros c ?%elem_of_nil].
    intros c Hc. apply Haz in Hc. unfold az in Hc.
    apply andb_true_iff in Hc as [?%N.leb_le ?%N.leb_le]. done.
  - unfold _extract_english_words. by rewrite str_lower_idemp.
  - done.
Qed.

(** ** The chunk files *)

Lemma digits_rev_S (fuel n : nat) :
  digits_rev (S fuel) n
  = if (n <? 10)%nat then [n]
    else (n `mod` 10)%nat :: digits_rev fuel (n `div` 10)%nat.
Proof. done. Qed.

Lemma digits_rev_small (fuel n : nat) :
  (n < 10)%nat → digits_rev (S fuel) n = [n].
Proof.
  intros Hn. rewrite digits_rev_S. by destruct (Nat.ltb_spec n 10); [|lia].
Qed.

Lemma digits_rev_large (fuel n : nat) :
  (10 ≤ n)%nat →
  digits_rev (S fuel) n = (n `mod` 10)%nat :: digits_rev fuel (n `div` 10)%nat.
Proof.
  intros Hn. rewrite digits_rev_S. by destruct (Nat.ltb_spec n 10); [lia|].
Qed.

Lemma digits_rev_nonempty (fuel n : nat) :
  (0 < length (digits_rev (S fuel) n))%nat.
Proof. rewrite digits_rev_S. destruct (n <? 10)%nat; simpl; lia. Qed.

Lemma div10_bounds (n : nat) :
  (10 * (n `div` 10) ≤ n ∧ n < 10 * (n `div` 10) + 10)%nat.
Proof.
  pose proof (Nat.div_mod_eq n 10). pose proof (Nat.mod_upper_bound n 10). lia.
Qed.

Lemma digits_rev_length (fuel n : nat) :
  let len := length (digits_rev fuel n) in
  ((n < 10)%nat → (1 ≤ fuel)%nat → len = 1%nat)
  ∧ ((10 ≤ n < 100)%nat → (2 ≤ fuel)%nat → len = 2%nat)
  ∧ ((100 ≤ n < 1000)%nat → (3 ≤ fuel)%nat → len = 3%nat)
  ∧ ((1000 ≤ n)%nat → (4 ≤ fuel)%nat → (4 ≤ len)%nat).
Proof.
  pose proof (div10_bounds n) as H1.
  pose proof (div10_bounds (n `div` 10)) as H2.
  pose proof (div10_bounds (n `div` 10 `div` 10)) as H3.
  cbv zeta. repeat split; intros Hn Hf.
  - destruct fuel as [|f]; [lia|]. by rewrite digits_rev_small.
  - destruct fuel as [|[|f]]; [lia..|].
    rewrite digits_rev_large, digits_rev_small by lia. done.
  - destruct fuel as [|[|[|f]]]; [lia..|].
    rewrite !digits_rev_large, digits_rev_small by lia. done.
  - destruct fuel as [|[|[|[|f]]]]; [lia..|].
    rewrite !(digits_rev_large (S _)) by lia.
    pose proof (digits_rev_nonempty f (n `div` 10 `div` 10 `div` 10)).
    cbn [length]. lia.
Qed.

Lemma format_03d_width (n : nat) :
  ((n < 1000)%nat → length (format_03d n) = 3%nat)
  ∧ ((1000 ≤ n)%nat → (3 < length (format_03d n))%nat).
Proof.
  unfold format_03d. rewrite length_fmap, length_rev, length_app, length_replicate.
  destruct (digits_rev_length (S n) n) as (L1 & L2 & L3 & L4).
  split; intros Hn; [|specialize (L4 Hn); lia].
  destruct (Nat.lt_ge_cases n 10); [rewrite L1 by lia; lia|].
  destruct (Nat.lt_ge_cases n 100); [rewrite L2 by lia; lia|].
  rewrite L3 by lia. lia.
Qed.

(** X7. [_write_lists] writes one file for every hundred entries begun and
    none for an empty dataset; up to the 999th file the names have the
    same length, from the 1000th on the number takes more than three
    digits. *)
Theorem write_lists_files (dataset : list entry) :
  length (_write_lists dataset) = ((length dataset + 99) `div` 100)%nat
  ∧ (_write_lists dataset = [] ↔ dataset = [])
  ∧ (∀ n, (n < 1000)%nat → length (list_filename n) = 13%nat)
  ∧ (∀ n, (1000 ≤ n)%nat → (13 < length (list_filename n))%nat).
Proof.
  rewrite write_lists_unfold.
  assert (∀ n, length (list_filename n) = 10 + length (format_03d n))%nat as Hname.
  { intros n. unfold list_filename. rewrite !length_app. simpl. lia. }
  pose proof (Nat.div_mod_eq (length dataset + 99) 100) as Hdiv.
  pose proof (Nat.mod_upper_bound (length dataset + 99) 100) as Hmod.
  split; [by rewrite length_fmap, length_seq|]. split; [|split].
  - split.
    + intros H%(f_equal length). rewrite length_fmap, length_seq in H. cbn [length] in H.
      apply length_zero_iff_nil. lia.
    + intros ->. done.
  - intros n Hn. rewrite Hname, (proj1 (format_03d_width n)) by done. done.
  - intros n Hn. rewrite Hname. pose proof (proj2 (format_03d_width n) Hn). lia.
Qed.

(** ** The summary *)

Lemma total_meanings_app (d1 d2 : list entry) :
  total_meanings (d1 ++ d2) = (total_meanings d1 + total_meanings d2)%nat.
Proof.
  unfold total_meanings. induction d1 as [|e d1 IH]; simpl; [done|].
  rewrite IH. lia.
Qed.

Lemma with_suffix_app (d1 d2 : list entry) :
  with_suffix (d1 ++ d2) = (with_suffix d1 + with_suffix d2)%nat.
Proof.
  unfold with_suffix. induction d1 as [|e d1 IH]; simpl; [done|].
  rewrite IH. lia.
Qed.

(** X8. The counts [_summarize] prints: the meanings that hold the separator
    are never more than the meanings; both counts add up over the parts
    of a dataset, so the chunks together count what the whole dataset
    counts; an entry without meanings counts for a character and for
    nothing else; and the summary has four lines and one more for each of
    the first five entries. *)
Theorem summarize_counts (d1 d2 : list entry) (h : str) :
  (with_suffix d1 ≤ total_meanings d1)%nat
  ∧ total_meanings (d1 ++ d2) = (total_meanings d1 + total_meanings d2)%nat
  ∧ with_suffix (d1 ++ d2) = (with_suffix d1 + with_suffix d2)%nat
  ∧ total_hanzi (d1 ++ d2) = (total_hanzi d1 + total_hanzi d2)%nat
  ∧ total_meanings ({| hanzi := h; meanings := [] |} :: d1) = total_meanings d1
  ∧ total_hanzi ({| hanzi := h; meanings := [] |} :: d1) = S (total_hanzi d1)
  ∧ length (_summarize d1) = (4 + length d1 `min` 5)%nat.
Proof.
  repeat split.
  - unfold with_suffix, total_meanings.
    induction d1 as [|e d1 IH]; simpl; [done|].
    pose proof (length_filter (λ meaning, HASH ∈ meaning) (meanings e)). lia.
  - apply total_meanings_app.
  - apply with_suffix_app.
  - unfold total_hanzi. apply length_app.
  - unfold _summarize. rewrite length_app, length_fmap. unfold slice_to.
    simpl. rewrite length_take. lia.
Qed.

(** ** The candidate maps *)

(** The loop that all three readers share: add the words of a record to
    the list of its character. *)
Lemma merge_lookup (records : list (str * list str))
    (m : gmap str (list str)) (h : str) :
  merge_frequency_english m records !! h
  = match texts_of h records with
    | [] => m !! h
    | ws :: rest =>
        Some (keep_first (default [] (m !! h) ++ concat (ws :: rest)))
    end.
Proof.
  unfold merge_frequency_english.
  revert m; induction records as [|[k ws] records IH]; intros m; [done|].
  cbn [foldl]. rewrite IH. unfold texts_of at 2. cbn [omap list_omap fst snd].
  fold (texts_of h records).
  destruct (decide (k = h)) as [->|Hne].
  - rewrite lookup_insert_eq, dedupe_preserve_keep_first.
    cbn [default from_option id].
    destruct (texts_of h records) as [|ws' rest]; cbn [concat].
    + by rewrite app_nil_r.
    + by rewrite keep_first_absorb, <- app_assoc.
  - by rewrite lookup_insert_ne.
Qed.

Lemma texts_of_app {A} (h : str) (r1 r2 : list (str * A)) :
  texts_of h (r1 ++ r2) = texts_of h r1 ++ texts_of h r2.
Proof. apply omap_app. Qed.

Lemma parse_unihan_line_record (result : gmap str (list str)) (line : str) :
  parse_unihan_line result line
  = merge_frequency_english result
      (match unihan_record line with
       | Some (hanzi, definition) =>
           [(hanzi, _extract_english_words definition)]
       | None => []
       end).
Proof.
  unfold parse_unihan_line, unihan_record.
  destruct (strip line) as [|c l] eqn:Hs; [done|]. cbn [truthy negb].
  destruct (split_on TAB (c :: l) []) as [|p0 [|hanzi [|field [|definition ps]]]];
    try done.
  destruct (decide (field = py "kDefinition")) as [->|Hne].
  - by rewrite decide_False by (by intros ?).
  - by rewrite decide_True.
Qed.

Lemma parse_unihan_merge (lines : list str) (m : gmap str (list str)) :
  foldl parse_unihan_line m lines
  = merge_frequency_english m
      ((λ r : str * str, (r.1, _extract_english_words r.2))
         <$> omap unihan_record lines).
Proof.
  revert m; induction lines as [|line lines IH]; intros m; [done|].
  cbn [foldl]. rewrite IH, parse_unihan_line_record.
  unfold merge_frequency_english. cbn [omap list_omap].
  by destruct (unihan_record line) as [[hanzi definition]|].
Qed.

Lemma texts_of_fmap {A B} (f : A → B) (h : str) (records : list (str * A)) :
  texts_of h ((λ r : str * A, (r.1, f r.2)) <$> records)
  = f <$> texts_of h records.
Proof.
  induction records as [|[k a] records IH]; [done|].
  unfold texts_of in *. cbn [fmap list_fmap omap list_omap fst snd].
  destruct (decide (k = h)); cbn [fmap list_fmap]; by rewrite IH.
Qed.

(** X9. The English candidates [parse_unihan_definitions] keeps for a
    character are the words of the definitions of all its [kDefinition]
    lines, in the order of the file, each word at its first occurrence
    only; a character with no such line has no entry. A line that is
    blank, has fewer than four fields between tabs once stripped, or whose
    third field is not [kDefinition] changes nothing. *)
Theorem parse_unihan_definitions_spec (lines : list str) (h : str) :
  parse_unihan_definitions lines !! h
  = (let definitions := texts_of h (omap unihan_record lines) in
     if decide (definitions = []) then None
     else Some (keep_first (concat (_extract_english_words <$> definitions))))
  ∧ (∀ ws, parse_unihan_definitions lines !! h = Some ws → NoDup ws)
  ∧ (∀ line, unihan_record line = None →
       parse_unihan_definitions (lines ++ [line])
       = parse_unihan_definitions lines).
Proof.
  assert (parse_unihan_definitions lines !! h
          = (let definitions := texts_of h (omap unihan_record lines) in
             if decide (definitions = []) then None
             else Some (keep_first
                          (concat (_extract_english_words <$> definitions)))))
    as Hlookup.
  { unfold parse_unihan_definitions.
    rewrite parse_unihan_merge, merge_lookup, texts_of_fmap, lookup_empty.
    cbv zeta. by destruct (texts_of h (omap unihan_record lines)). }
  split; [done|]. split.
  - rewrite Hlookup. cbv zeta. case_decide; [done|].
    intros ws [= <-]. apply keep_first_NoDup.
  - intros line Hline. unfold parse_unihan_definitions.
    rewrite foldl_app. cbn [foldl].
    rewrite parse_unihan_line_record, Hline. done.
Qed.

Lemma load_frequency_english_step (en_map : gmap str (list str))
    (row : gmap str str) :
  (let hanzi := default [] (row !! py "hanzi_sc") in
   let definition := default [] (row !! py "cc_cedict_definitions") in
   if negb (truthy hanzi) || negb (truthy definition) then en_map
   else
     let words := extract_english_words definition in
     if negb (bool_decide (words ≠ [])) then en_map
     else
       let existing := default [] (en_map !! hanzi) in
       <[ hanzi := _dedupe_preserve (existing ++ words) ]> en_map)
  = merge_frequency_english en_map
      (match frequency_record row with Some r => [r] | None => [] end).
Proof.
  unfold frequency_record. cbv zeta.
  destruct (truthy (default [] (row !! py "hanzi_sc"))); [|done].
  destruct (truthy (default [] (row !! py "cc_cedict_definitions"))); [|done].
  cbn [negb orb andb].
  by destruct (bool_decide _).
Qed.

Lemma load_frequency_english_merge (rows : list (gmap str str))
    (m : gmap str (list str)) :
  foldl (λ en_map row,
           let hanzi := default [] (row !! py "hanzi_sc") in
           let definition := default [] (row !! py "cc_cedict_definitions") in
           if negb (truthy hanzi) || negb (truthy definition) then en_map
           else
             let words := extract_english_words definition in
             if negb (bool_decide (words ≠ [])) then en_map
             else
               let existing := default [] (en_map !! hanzi) in
               <[ hanzi := _dedupe_preserve (existing ++ words) ]> en_map)
        m rows
  = merge_frequency_english m (omap frequency_record rows).
Proof.
  revert m; induction rows as [|row rows IH]; intros m; [done|].
  cbn [foldl]. rewrite IH, load_frequency_english_step.
  unfold merge_frequency_english. cbn [omap list_omap].
  by destruct (frequency_record row).
Qed.

Lemma load_frequency_list_fold (rows : list (gmap str str)) (acc : list str) :
  foldl (λ hanzi_list row,
           match row !! py "hanzi_sc" with
           | Some hanzi =>
               if truthy hanzi then hanzi_list ++ [hanzi] else hanzi_list
           | None => hanzi_list
           end)
        acc rows
  = acc ++ omap (λ row, match row !! py "hanzi_sc" with
                        | Some hanzi => if truthy hanzi then Some hanzi else None
                        | None => None
                        end) rows.
Proof.
  revert acc; induction rows as [|row rows IH]; intros acc.
  - by rewrite app_nil_r.
  - cbn [foldl omap list_omap]. rewrite IH.
    destruct (row !! py "hanzi_sc") as [[|c hz]|]; cbn [truthy]; try done.
    by rewrite <- app_assoc.
Qed.

Lemma frequency_record_listed (rows : list (gmap str str)) (h : str) (ws : list str) :
  (h, ws) ∈ omap frequency_record rows →
  h ∈ _load_frequency_list rows ∧ ws ≠ [].
Proof.
  unfold _load_frequency_list. rewrite load_frequency_list_fold. cbn [app].
  intros (row & Hrow & Hrec)%list_elem_of_omap.
  unfold frequency_record in Hrec. cbv zeta in Hrec.
  destruct (row !! py "hanzi_sc") as [hz|] eqn:Hh;
    cbn [default from_option id] in Hrec; [|done].
  destruct (truthy hz) eqn:Ht; [|done].
  destruct (truthy (default [] (row !! py "cc_cedict_definitions"))); [|done].
  cbn [andb] in Hrec. case_bool_decide; [|done].
  injection Hrec as <- <-. split; [|done].
  apply list_elem_of_omap. exists row. split; [done|]. by rewrite Hh, Ht.
Qed.

Lemma texts_of_elem {A} (h : str) (records : list (str * A)) (a : A) :
  a ∈ texts_of h records ↔ (h, a) ∈ records.
Proof.
  unfold texts_of. rewrite list_elem_of_omap. split.
  - intros ([k b] & Hin & Hd). cbn [fst snd] in Hd.
    case_decide; by simplify_eq.
  - intros Hin. exists (h, a). split; [done|]. cbn [fst snd].
    by rewrite decide_True.
Qed.

(** X10. The English words [_load_frequency_english] keeps for a character are
    those of the definitions of its rows, in row order, first occurrences
    only. It never keeps an empty list, and every character it keeps is
    one that [_load_frequency_list] lists from the same rows. *)
Theorem load_frequency_english_spec (rows : list (gmap str str)) (h : str) :
  _load_frequency_english rows !! h
  = (let words := texts_of h (omap frequency_record rows) in
     if decide (words = []) then None
     else Some (keep_first (concat words)))
  ∧ (∀ ws, _load_frequency_english rows !! h = Some ws →
       NoDup ws ∧ ws ≠ [] ∧ h ∈ _load_frequency_list rows).
Proof.
  assert (_load_frequency_english rows !! h
          = (let words := texts_of h (omap frequency_record rows) in
             if decide (words = []) then None
             else Some (keep_first (concat words)))) as Hlookup.
  { unfold _load_frequency_english.
    rewrite load_frequency_english_merge, merge_lookup, lookup_empty.
    cbv zeta. by destruct (texts_of h (omap frequency_record rows)). }
  split; [done|]. rewrite Hlookup. cbv zeta.
  destruct (texts_of h (omap frequency_record rows)) as [|ws0 rest] eqn:Ht;
    [done|].
  rewrite decide_False by done. intros ws [= <-].
  assert ((h, ws0) ∈ omap frequency_record rows) as Hin.
  { apply texts_of_elem. rewrite Ht. left. }
  apply frequency_record_listed in Hin as [Hlist Hne].
  split; [apply keep_first_NoDup|]. split; [|done].
  destruct ws0 as [|w ws0]; [done|]. done.
Qed.

Lemma texts_of_unique {A} (h : str) (items : list (str * A)) (a : A) :
  NoDup items.*1 → (h, a) ∈ items → texts_of h items = [a].
Proof.
  induction items as [|[k b] items IH]; intros Hnd Hin.
  - by apply elem_of_nil in Hin.
  - apply NoDup_cons in Hnd as [Hk Hnd]. unfold texts_of in *.
    cbn [omap list_omap fst snd].
    apply elem_of_cons in Hin as [[= <- <-]|Hin].
    + rewrite decide_True by done. f_equal.
      destruct (omap _ items) as [|x xs] eqn:E; [done|]. exfalso.
      assert (x ∈ omap (λ r : str * A, if decide (r.1 = h) then Some r.2 else None)
                   items) as Hx by (rewrite E; left).
      apply (texts_of_elem h items x) in Hx.
      apply Hk. apply list_elem_of_fmap. by exists (h, x).
    + rewrite decide_False; [by apply IH|].
      intros ->. apply Hk. apply list_elem_of_fmap. by exists (h, a).
Qed.

Lemma texts_of_absent {A} (h : str) (items : list (str * A)) :
  h ∉ items.*1 → texts_of h items = [].
Proof.
  intros Hh. destruct (texts_of h items) as [|a l] eqn:E; [done|]. exfalso.
  assert (a ∈ texts_of h items) as Ha by (rewrite E; left).
  apply texts_of_elem in Ha. apply Hh, list_elem_of_fmap. by exists (h, a).
Qed.

(** X11. The loop of [main] over the items of the frequency map: a character
    of the frequency map gets the dictionary words followed by the new
    words of the frequency file, so the dictionary words keep their
    places; the other characters keep what they had. *)
Theorem merge_frequency_english_spec (en_map : gmap str (list str))
    (items : list (str * list str)) (h : str) :
  NoDup items.*1 →
  (∀ ws, (h, ws) ∈ items →
     merge_frequency_english en_map items !! h
     = Some (keep_first (default [] (en_map !! h))
             ++ filter (λ y, y ∉ default [] (en_map !! h)) (keep_first ws)))
  ∧ (h ∉ items.*1 → merge_frequency_english en_map items !! h = en_map !! h).
Proof.
  intros Hnd. split.
  - intros ws Hin. rewrite merge_lookup, (texts_of_unique h items ws) by done.
    cbn [concat]. by rewrite app_nil_r, keep_first_app.
  - intros Hh. by rewrite merge_lookup, texts_of_absent.
Qed.

(** ** The Russian candidates *)

(** X6. The Russian candidates of a definition are distinct, none of them a
    stopword, and each is the lowercase form of a run of letters of the
    text; an empty definition gives none. *)
Theorem russian_words_invariant (RU_WORD_class : N → bool) (text : str) :
  NoDup (_extract_russian_words RU_WORD_class text)
  ∧ (∀ w, w ∈ _extract_russian_words RU_WORD_class text →
       w ∉ STOPWORDS_RU
       ∧ ∃ run, w = str_lower run ∧ run ≠ []
                ∧ ∀ c, c ∈ run → RU_WORD_class c = true)
  ∧ _extract_russian_words RU_WORD_class [] = [].
Proof.
  unfold _extract_russian_words. rewrite !dedupe_preserve_keep_first.
  split; [apply keep_first_NoDup|]. split; [|done].
  intros w. rewrite keep_first_elem.
  intros (run & -> & [[Hstop _] Hrun]%list_elem_of_filter)%list_elem_of_fmap.
  split; [done|]. exists run. split; [done|].
  apply finditer_runs in Hrun; [done|]. by intros c ?%elem_of_nil.
Qed.

(** ** From the dictionary to the roots *)

Lemma parse_unihan_NoDup (lines : list str) (h : str) :
  NoDup (get_or_empty (parse_unihan_definitions lines) h).
Proof.
  unfold get_or_empty, parse_unihan_definitions.
  rewrite parse_unihan_merge, merge_lookup, lookup_empty.
  destruct (texts_of h _); cbn [default from_option id];
    [constructor|apply keep_first_NoDup].
Qed.

(** X12. A character with three candidates or more in the dictionary has the
    first three of them as its roots: the words of the frequency file,
    merged in by [main], and the Russian candidates come after them and
    are not selected. *)
Theorem dictionary_roots_first (lines : list str)
    (items : list (str * list str)) (ru_map : gmap str (list str)) (h : str) :
  NoDup items.*1 →
  (3 ≤ length (get_or_empty (parse_unihan_definitions lines) h))%nat →
  (_select_roots
     (get_or_empty
        (merge_frequency_english (parse_unihan_definitions lines) items) h)
     (get_or_empty ru_map h) default_max_roots).*1
  = take 3 (get_or_empty (parse_unihan_definitions lines) h).
Proof.
  intros Hnd Hlen.
  pose proof (parse_unihan_NoDup lines h) as Hu.
  set (U := get_or_empty (parse_unihan_definitions lines) h) in *.
  assert (∃ F, get_or_empty
                 (merge_frequency_english (parse_unihan_definitions lines) items) h
               = U ++ F) as [F HF].
  { unfold get_or_empty at 1. rewrite merge_lookup.
    fold (get_or_empty (parse_unihan_definitions lines) h). fold U.
    destruct (texts_of h items) as [|ws rest]; cbn [default from_option id].
    - exists []. by rewrite app_nil_r.
    - rewrite keep_first_app, (keep_first_NoDup_id U) by done. eauto. }
  rewrite HF, select_roots_words. unfold slice_to, default_max_roots.
  cbn [Z.ltb Z.compare Z.to_nat Pos.to_nat Pos.iter_op Init.Nat.add].
  rewrite <- app_assoc, keep_first_app, (keep_first_NoDup_id U) by done.
  by rewrite take_app_le.
Qed.


(** * Examples *)

Lemma elements_perm (s : gset str) : elements s ≡ₚ elements s.
Proof. reflexivity. Defined.


(** The reader that cuts at the first [#] needs a lemma without one: the
    lemma [#] is encoded as itself and read as the empty string. *)
Remark decode_first_hash_separator :
  ¬ (∀ L F : str, startswith F L = true →
       set_map decode (encode_en_suffixes L [F] true) =@{gset str} {[ F ]}).
Proof.
  intros H. specialize (H [HASH] [HASH] eq_refl).
  assert ([] ∈ set_map (D:=gset str) decode
                 (encode_en_suffixes [HASH] [[HASH]] true)) as Hin.
  { apply elem_of_map. exists [HASH]. split; [done|].
    apply encode_en_suffixes_elem. exists [HASH].
    split; [by left|apply emits_lemma]. }
  rewrite H in Hin. by apply elem_of_singleton in Hin.
Qed.



(** жи, a word with a Russian letter, is tagged ["ru"]. *)
Lemma select_roots_tag_witness :
  (RU = RU ↔ ∃ ch, ch ∈ [0x436; 0x69] ∧ russian_letter ch)
  ∧ (RU = EN ↔ ∀ ch, ch ∈ [0x436; 0x69] → ¬ russian_letter ch).
Proof.
  apply (select_roots_tag [py "a"] [[0x436; 0x69]] 3 [0x436; 0x69] RU).
  vm_compute. right. left.
Defined.

(** The Ukrainian і (U+0456) is a Cyrillic letter, and the word is tagged
    ["en"]. *)
Lemma select_roots_tag_counterexample :
  ¬ (∀ (en_roots ru_roots : list str) (max_roots : Z) (word : str) (l : lang),
       (word, l) ∈ _select_roots en_roots ru_roots max_roots →
       (l = RU ↔ ∃ ch, ch ∈ word ∧ cyrillic_code_point ch)).
Proof.
  intros H. specialize (H [] [[0x456]] 3%Z [0x456] EN).
  assert (EN = RU) as Heq; [|discriminate Heq].
  apply H.
  - vm_compute. left.
  - exists 0x456. split; [left|]. unfold cyrillic_code_point. lia.
Qed.


Lemma expansion_nonempty_witness :
  py "studies"
  ∈ _expand_english_word elements true true sample_lemmatize
      sample_inflections (py "studies").
Proof.
  exact (proj2 (proj2 (proj2 (proj1
           (expansion_nonempty elements elements_perm true true
              sample_lemmatize sample_inflections sample_parse [] ∅ ∅)
           (py "studies"))))).
Defined.

Lemma lemmatize_variants_spec_witness :
  en_lemmatize_variants false true sample_lemmatize (py "studies")
  = {[ py "studies" ]}.
Proof.
  exact (proj1 (proj2 (proj2
           (lemmatize_variants_spec elements elements_perm sample_lemmatize
              sample_inflections (py "studies"))
           false true eq_refl))).
Defined.

(** The example of the design: ["to study; to learn"] gives the
    candidates [study] and [learn]. *)
Example extract_study_learn :
  _extract_english_words (py "to study; to learn") = [py "study"; py "learn"].
Proof. vm_compute. reflexivity. Qed.

(** 250 entries go to three files, the last of 50 entries. *)
Example write_lists_250 :
  (λ p, (p.1, length p.2))
    <$> _write_lists (replicate 250 {| hanzi := [0x5B66]; meanings := [] |})
  = [(py "list_001.json", 100%nat); (py "list_002.json", 100%nat);
     (py "list_003.json", 50%nat)].
Proof. vm_compute. reflexivity. Qed.

(** A character with no candidate has an entry with no meaning. *)
Example no_candidates :
  _collect_meanings elements true true sample_lemmatize sample_inflections
    sample_parse [[0x5B66]] ∅ ∅
  = [{| hanzi := [0x5B66]; meanings := [] |}].
Proof. vm_compute. reflexivity. Qed.

(** * Examples of the further properties *)

Lemma merge_frequency_english_spec_witness :
  merge_frequency_english {[ [0x5B66] := [py "study"; py "learn"] ]}
    [([0x5B66], [py "learn"; py "school"])] !! [0x5B66]
  = Some (keep_first (default [] (({[ [0x5B66] := [py "study"; py "learn"] ]}
                                     : gmap str (list str)) !! [0x5B66]))
          ++ filter (λ y, y ∉ default [] (({[ [0x5B66] := [py "study"; py "learn"] ]}
                                             : gmap str (list str)) !! [0x5B66]))
               (keep_first [py "learn"; py "school"])).
Proof.
  apply (proj1 (merge_frequency_english_spec
                  {[ [0x5B66] := [py "study"; py "learn"] ]}
                  [([0x5B66], [py "learn"; py "school"])] [0x5B66]
                  ltac:(repeat constructor; by intros ?%elem_of_nil))).
  left.
Defined.

Lemma dictionary_roots_first_witness :
  (_select_roots
     (get_or_empty
        (merge_frequency_english
           (parse_unihan_definitions
              [py "U+5B66	X	kDefinition	learning, knowledge; school"])
           [(py "X", [py "study"])]) (py "X"))
     (get_or_empty ∅ (py "X")) default_max_roots).*1
  = take 3 (get_or_empty
              (parse_unihan_definitions
                 [py "U+5B66	X	kDefinition	learning, knowledge; school"])
              (py "X")).
Proof.
  apply (dictionary_roots_first
           [py "U+5B66	X	kDefinition	learning, knowledge; school"]
           [(py "X", [py "study"])] ∅ (py "X")).
  - repeat constructor. by intros ?%elem_of_nil.
  - vm_compute. lia.
Defined.

Lemma expansion_tokens_witness :
  py "study#ing"
  ∈ _expand_english_word elements true true sample_lemmatize
      sample_inflections (py "study").
Proof.
  apply (proj1 (expansion_tokens elements elements_perm true true
                  sample_lemmatize sample_inflections sample_parse
                  (py "study") (py "study#ing"))).
  exists (py "study"), (py "ing"). split; [|split; [|done]].
  - apply lemmatize_variants_elem. by left.
  - apply (generate_en_inflections_elem elements elements_perm).
    exists (py "study"). split; [apply lemmatize_variants_elem; by left|].
    right. exists [py "studied"; py "studying"; py "study"].
    split; [vm_compute; right; left|right; left].
Defined.

